(** * A first-fit allocator over [sbrk] and [mmap]: model and properties

    Shallow embedding of [mymalloc.c].  The C functions [init_mem],
    [nextBlock], [allocMap], [expandHeap], [mymalloc], [mycalloc] and
    [myfree] become functions of a small state-and-failure monad over an
    explicit program state: the memory that holds the block headers, the
    global [head], the two mutexes, the kernel behind [sbrk] and [mmap],
    and the diagnostic output. *)

From Stdlib Require Import ZArith Lia List Bool.
From stdpp Require Import base option list gmap.

Local Open Scope Z_scope.

(** ** Machine integers (LP64) *)

(** [size_t] is an unsigned 64-bit integer: arithmetic wraps. *)
Definition wrap (z : Z) : Z := z mod 2 ^ 64.

(** Conversion of a 64-bit value to [int] (the initialisation of
    [totPage]) and to [intptr_t] (the argument of [sbrk]). *)
Definition to_int (z : Z) : Z := (z + 2 ^ 31) mod 2 ^ 32 - 2 ^ 31.
Definition to_intptr (z : Z) : Z := (z + 2 ^ 63) mod 2 ^ 64 - 2 ^ 63.

(** Pointers are addresses in [Z]; pointer arithmetic is plain addition
    (C leaves its overflow undefined). *)
Definition NULL : Z := 0.

(** [(void * ) -1], the failure value of [sbrk] and [mmap]. *)
Definition MAP_FAILED : Z := -1.

(** ** Block headers *)

(** [struct block]: [size_t size; struct block *next; int free]. *)
Record block_t : Type := Block { size : Z; next : Z; free : Z }.

(** [sizeof(block_t)]: 8 + 8 + 4 bytes, padded to the alignment of 8. *)
Definition BLOCK_SIZE : Z := 24.

(** Content of memory in which no header was written yet: the kernel hands
    out zero-filled pages. *)
Definition blank : block_t := Block 0 0 0.

(** Memory: the headers written so far, by address, one record for each.
    The records stand for the bytes of the process as long as the headers
    share no byte and lie in memory the kernel handed out, which is what
    [laid_out] below says of a state.  Where a size wraps around, the C
    program writes a header over another one or outside its memory, and
    the records no longer tell what the bytes hold. *)
Abbreviation memory := (gmap Z block_t).

Definition set_size (v : Z) (b : block_t) : block_t := Block v (next b) (free b).
Definition set_next (v : Z) (b : block_t) : block_t := Block (size b) v (free b).
Definition set_free (v : Z) (b : block_t) : block_t := Block (size b) (next b) v.

(** The effect of the assignment [p->f = v] on memory. *)
Definition poke (upd : block_t -> block_t) (p : Z) (m : memory) : memory :=
  <[p := upd (default blank (m !! p))]> m.

(** ** The list of headers

    [lseg m p l]: following [next] from [p] in [m] visits the headers at
    the addresses [l], in this order, and then reaches [NULL]. *)
Fixpoint lseg (m : memory) (p : Z) (l : list Z) : Prop :=
  match l with
  | [] => p = NULL
  | a :: l' =>
    p = a /\ a <> NULL /\ exists b, m !! a = Some b /\ lseg m (next b) l'
  end.

(** The test of the search: [i->free && i->size >= s]. *)
Definition fits (m : memory) (s a : Z) : bool :=
  match m !! a with
  | Some b => negb (free b =? 0) && (s <=? size b)
  | None => false
  end.

(** First fit: the first header in list order that passes the test. *)
Definition first_fit (m : memory) (s : Z) (l : list Z) : option Z :=
  find (fits m s) l.

(** An address the list does not use yet. *)
Definition fresh (l : list Z) (p : Z) : Prop := p <> NULL /\ ~ In p l.

(** The bytes of the header at [a], and among them those of its field
    [free]: an [int] at offset 16, behind [size] and [next]. *)
Definition header_bytes (a x : Z) : Prop := a <= x < a + BLOCK_SIZE.

(** No two headers of [l] share a byte. *)
Definition spaced (l : list Z) : Prop :=
  forall a1 a2, In a1 l -> In a2 l -> a1 <> a2 ->
    a1 + BLOCK_SIZE <= a2 \/ a2 + BLOCK_SIZE <= a1.

(** ** The kernel

    The operating system is a collaborator of the allocator, not part of
    it: any type of kernel states with the two primitives and a page size. *)
Class Kernel (OS : Type) : Type := {
  (** [sbrk d]: the previous program break, or [MAP_FAILED]. *)
  sbrk : Z -> OS -> Z * OS;
  (** [mmap(NULL, len, ...)]: the address of the mapping, or [MAP_FAILED]. *)
  mmap : Z -> OS -> Z * OS;
  (** [sysconf(_SC_PAGE_SIZE)]. *)
  PAGE_SIZE : Z
}.

(** A small kernel to run the allocator on: the break moves up to a limit,
    mappings are handed out upwards from [k_map], rounded to pages of 4096
    bytes, while [k_left] mappings remain. *)
Record toy : Type := Toy { k_brk : Z; k_limit : Z; k_map : Z; k_left : nat }.

Definition toy_sbrk (d : Z) (k : toy) : Z * toy :=
  if k_brk k + d <=? k_limit k
  then (k_brk k, Toy (k_brk k + d) (k_limit k) (k_map k) (k_left k))
  else (MAP_FAILED, k).

Definition toy_mmap (len : Z) (k : toy) : Z * toy :=
  match k_left k with
  | O => (MAP_FAILED, k)
  | S n => (k_map k,
            Toy (k_brk k) (k_limit k) (k_map k + (len + 4095) / 4096 * 4096) n)
  end.

#[export] Instance toy_kernel : Kernel toy :=
  {| sbrk := toy_sbrk; mmap := toy_mmap; PAGE_SIZE := 4096 |}.

(** What the allocator relies on from the kernel, as the manual pages of
    [sbrk] and [mmap] give it.  [owned o x]: the byte at [x] was handed to
    the process by a call made so far.  [sbrk 0] only reads the break; a
    call that succeeds hands out bytes that were not owned before, [d] of
    them from the break for [sbrk d], the pages that hold [len] bytes for
    [mmap len]; no call takes memory back; the byte at address 0 is never
    handed out. *)
Class LawfulKernel (OS : Type) `{K : Kernel OS} : Type := {
  kernel_ok : OS -> Prop;
  owned : OS -> Z -> Prop;
  owned_positive : forall o x, kernel_ok o -> owned o x -> 0 < x;
  sbrk_query : forall o, kernel_ok o -> snd (sbrk 0 o) = o;
  sbrk_grows : forall o d r o',
    kernel_ok o -> 0 < d -> sbrk d o = (r, o') ->
    kernel_ok o'
    /\ (forall x, owned o x -> owned o' x)
    /\ (r <> MAP_FAILED ->
        r = fst (sbrk 0 o)
        /\ forall x, r <= x < r + d -> ~ owned o x /\ owned o' x);
  mmap_grows : forall o len pt o',
    kernel_ok o -> 0 < len -> mmap len o = (pt, o') ->
    kernel_ok o'
    /\ (forall x, owned o x -> owned o' x)
    /\ (pt <> MAP_FAILED ->
        forall x,
          pt <= x < pt + (len + PAGE_SIZE - 1) / PAGE_SIZE * PAGE_SIZE ->
          ~ owned o x /\ owned o' x)
}.

(** The small kernel keeps these rules when its heap starts at 4096 and its
    mappings at 16777216. *)
Definition toy_ok (k : toy) : Prop :=
  4096 <= k_brk k <= k_limit k /\ k_limit k <= 16777216 <= k_map k.

Definition toy_owned (k : toy) (x : Z) : Prop :=
  4096 <= x < k_brk k \/ 16777216 <= x < k_map k.

#[export] Instance toy_lawful : LawfulKernel toy.
Proof.
  refine {| kernel_ok := toy_ok; owned := toy_owned |}.
  - unfold toy_ok, toy_owned. intros k x Hok Hx. lia.
  - unfold toy_ok. intros k Hok. simpl. unfold toy_sbrk.
    destruct (Z.leb_spec (k_brk k + 0) (k_limit k)); [|reflexivity].
    destruct k; simpl in *. f_equal. lia.
  - unfold toy_ok, toy_owned. intros k d r k' Hok Hd E. simpl in *.
    unfold toy_sbrk in *.
    destruct (Z.leb_spec (k_brk k + d) (k_limit k)) as [Hle|Hgt];
      injection E as <- <-; simpl.
    + split; [lia|]. split; [intros x; lia|]. intros _.
      destruct (Z.leb_spec (k_brk k + 0) (k_limit k)); [|lia].
      split; [reflexivity|]. intros x Hx. lia.
    + split; [lia|]. split; [tauto|]. intros Hr. now contradict Hr.
  - unfold toy_ok, toy_owned. intros k len pt k' Hok Hlen E. simpl in *.
    unfold toy_mmap in *.
    replace (len + 4096 - 1) with (len + 4095) by lia.
    assert (Hr : 0 <= (len + 4095) / 4096 * 4096).
    { assert (0 <= (len + 4095) / 4096) by (apply Z.div_pos; lia). lia. }
    destruct (k_left k); injection E as <- <-; simpl.
    + split; [lia|]. split; [tauto|]. intros Hr'. now contradict Hr'.
    + split; [lia|]. split; [intros x; lia|]. intros _ x Hx. lia.
Defined.

(** ** Program state and the monad of the C code *)

Inductive mutex : Type := MemChange_mx | ListChange_mx.

(** What the program writes or does besides memory: [perror],
    [debug_printf], and the call of [memset]. *)
Inductive event : Type :=
| Perror
| Debug
| Memset (p n : Z).

(** Ways a call does not return. *)
Inductive crash : Type :=
| NullDeref      (* a field of the block at address 0 is read or written *)
| BadAccess      (* a field is read where no header was ever written *)
| NullMemset.    (* memset of a positive number of bytes at address 0 *)

Inductive outcome (S A : Type) : Type :=
| Ret (a : A) (st : S)
| Crash (c : crash)
| Deadlock        (* pthread_mutex_lock on a mutex that is already held *)
| OutOfFuel.      (* the traversal did not end within the given steps *)

Arguments Ret {S A} a st.
Arguments Crash {S A} c.
Arguments Deadlock {S A}.
Arguments OutOfFuel {S A}.

Section Allocator.

Context {OS : Type} `{K : Kernel OS}.

Record state : Type := State {
  mem : memory;             (* the headers, by address *)
  head : Z;                 (* static block_t *head *)
  memChange : bool;         (* true: the mutex is held *)
  listChange : bool;
  os : OS;
  out : list event          (* most recent first *)
}.

Definition M (A : Type) : Type := state -> outcome state A.

Definition ret {A} (a : A) : M A := fun st => Ret a st.

Definition bind {A B} (c : M A) (k : A -> M B) : M B :=
  fun st =>
    match c st with
    | Ret a st' => k a st'
    | Crash e => Crash e
    | Deadlock => Deadlock
    | OutOfFuel => OutOfFuel
    end.

#[local] Notation "'let*' x ':=' c 'in' k" := (bind c (fun x => k))
  (at level 10, x name, c at level 100, k at level 200).
#[local] Notation "c ';;;' k" := (bind c (fun _ => k))
  (at level 100, k at level 200, right associativity).

Definition with_mem (m : memory) (st : state) : state :=
  State m (head st) (memChange st) (listChange st) (os st) (out st).
Definition with_head (h : Z) (st : state) : state :=
  State (mem st) h (memChange st) (listChange st) (os st) (out st).
Definition with_mutex (x : mutex) (b : bool) (st : state) : state :=
  match x with
  | MemChange_mx => State (mem st) (head st) b (listChange st) (os st) (out st)
  | ListChange_mx => State (mem st) (head st) (memChange st) b (os st) (out st)
  end.
Definition with_os (o : OS) (st : state) : state :=
  State (mem st) (head st) (memChange st) (listChange st) o (out st).
Definition with_out (l : list event) (st : state) : state :=
  State (mem st) (head st) (memChange st) (listChange st) (os st) l.

Definition held (x : mutex) (st : state) : bool :=
  match x with MemChange_mx => memChange st | ListChange_mx => listChange st end.

(** [pthread_mutex_lock] and [pthread_mutex_unlock] of one thread. *)
Definition lock (x : mutex) : M unit :=
  fun st => if held x st then Deadlock else Ret tt (with_mutex x true st).
Definition unlock (x : mutex) : M unit :=
  fun st => Ret tt (with_mutex x false st).

(** [p->f] read, and [p->f = v] written. *)
Definition load (f : block_t -> Z) (p : Z) : M Z :=
  fun st =>
    if p =? NULL then Crash NullDeref
    else match mem st !! p with
         | Some b => Ret (f b) st
         | None => Crash BadAccess
         end.

(** A write goes through at every address but 0: that the address is memory
    of the process is not tested here, it is what [backed] says of the
    headers of a list. *)
Definition store (upd : block_t -> block_t) (p : Z) : M unit :=
  fun st =>
    if p =? NULL then Crash NullDeref
    else Ret tt (with_mem (poke upd p (mem st)) st).

Definition get_head : M Z := fun st => Ret (head st) st.
Definition put_head (p : Z) : M unit := fun st => Ret tt (with_head p st).

Definition call_sbrk (d : Z) : M Z :=
  fun st => let (r, o) := sbrk d (os st) in Ret r (with_os o st).
Definition call_mmap (len : Z) : M Z :=
  fun st => let (r, o) := mmap len (os st) in Ret r (with_os o st).

Definition emit (e : event) : M unit :=
  fun st => Ret tt (with_out (e :: out st) st).

(** [memset(p, 0, n)]: the bytes after a header are not part of the state,
    the call is recorded with its pointer and its length; writing through
    the null pointer is a crash. *)
Definition memset (p n : Z) : M unit :=
  fun st =>
    if (p =? NULL) && (0 <? n) then Crash NullMemset
    else Ret tt (with_out (Memset p n :: out st) st).

(** ** The functions of [mymalloc.c] *)

Definition init_mem (s : Z) : M Z :=
  lock MemChange_mx;;;
  let* pt := call_sbrk 0 in
  let* r := call_sbrk (to_intptr (wrap (s + BLOCK_SIZE))) in
  if r =? MAP_FAILED then ret NULL
  else
    unlock MemChange_mx;;;
    lock ListChange_mx;;;
    put_head pt;;;
    (let* h := get_head in store (set_size s) h);;;
    (let* h := get_head in store (set_free 0) h);;;
    (let* h := get_head in store (set_next NULL) h);;;
    unlock ListChange_mx;;;
    get_head.

(** The early [return] inside the [while] of [nextBlock], or the value
    of the iterator when the loop condition fails. *)
Inductive loop_exit : Type :=
| Return (b : Z)
| Break (i : Z).

(** The [while (i->next != NULL)] loop of [nextBlock]; [fuel] bounds the
    number of times the loop condition is evaluated. *)
Fixpoint nextBlock_loop (fuel : nat) (s i : Z) : M loop_exit :=
  match fuel with
  | O => fun _ => OutOfFuel
  | S fuel' =>
    let* n := load next i in
    if n =? NULL then ret (Break i)
    else
      let* f := load free i in
      let* sz := load size i in
      if negb (f =? 0) && (s <=? sz) then
        store (set_free 0) i;;;
        unlock ListChange_mx;;;
        ret (Return i)
      else
        let* n' := load next i in
        nextBlock_loop fuel' s n'
  end.

(** [PAGE_SIZE] is a [long]; next to a [size_t] it is converted to
    [unsigned long]. *)
Definition upage : Z := wrap PAGE_SIZE.

(** The value of [totPage] after the increment. *)
Definition totPage (s : Z) : Z :=
  let t := to_int (wrap (s + BLOCK_SIZE) / upage) in
  if negb (wrap (s + BLOCK_SIZE) mod upage =? 0) then t + 1 else t.

(** The condition of the [if] that keeps the mapping in one block. *)
Definition no_split (s : Z) : bool :=
  (wrap (s + BLOCK_SIZE) mod upage =? 0)
  || (wrap (totPage s * PAGE_SIZE - s - BLOCK_SIZE) <? BLOCK_SIZE + 1).

Definition allocMap (s last : Z) : M Z :=
  lock MemChange_mx;;;
  let* pt := call_mmap (wrap (s + BLOCK_SIZE)) in
  unlock MemChange_mx;;;
  if pt =? MAP_FAILED then ret NULL
  else
    lock ListChange_mx;;;
    if no_split s then
      let expanded := pt in
      store (set_next expanded) last;;;
      store (set_free 0) expanded;;;
      store (set_next NULL) expanded;;;
      store (set_size s) expanded;;;
      unlock ListChange_mx;;;
      ret expanded
    else
      let split1 := pt in
      let split2 := pt + s + BLOCK_SIZE in
      store (set_next split1) last;;;
      store (set_free 0) split1;;;
      store (set_next split2) split1;;;
      store (set_size s) split1;;;
      store (set_free 1) split2;;;
      store (set_next NULL) split2;;;
      store (set_size (wrap (totPage s * PAGE_SIZE - s - 2 * BLOCK_SIZE))) split2;;;
      unlock ListChange_mx;;;
      ret split1.

Definition expandHeap (s last : Z) : M Z :=
  lock MemChange_mx;;;
  let* pt := call_sbrk 0 in
  let* r := call_sbrk (to_intptr (wrap (s + BLOCK_SIZE))) in
  if r =? MAP_FAILED then ret NULL
  else
    unlock MemChange_mx;;;
    lock ListChange_mx;;;
    let expanded := pt in
    store (set_next expanded) last;;;
    store (set_free 0) expanded;;;
    store (set_next NULL) expanded;;;
    store (set_size s) expanded;;;
    unlock ListChange_mx;;;
    ret expanded.

Definition nextBlock (fuel : nat) (s : Z) : M Z :=
  lock ListChange_mx;;;
  let* i := get_head in
  let* e := nextBlock_loop fuel s i in
  match e with
  | Return b => ret b
  | Break i =>
    let* f := load free i in
    let* sz := load size i in
    if negb (f =? 0) && (s <=? sz) then
      store (set_free 0) i;;;
      unlock ListChange_mx;;;
      ret i
    else
      unlock ListChange_mx;;;
      if upage <=? wrap (s + BLOCK_SIZE) then allocMap s i
      else expandHeap s i
  end.

Definition mymalloc (fuel : nat) (s : Z) : M Z :=
  lock ListChange_mx;;;
  let* h := get_head in
  if h =? 0 then
    unlock ListChange_mx;;;
    let* b := init_mem s in
    ret (b + BLOCK_SIZE)
  else
    unlock ListChange_mx;;;
    let* next := nextBlock fuel s in
    if next =? NULL then
      emit Perror;;;
      ret NULL
    else
      emit Debug;;;
      ret (next + BLOCK_SIZE).

Definition mycalloc (fuel : nat) (nmemb s : Z) : M Z :=
  let total := wrap (nmemb * s) in
  let* rslt := mymalloc fuel total in
  memset rslt total;;;
  emit Debug;;;
  ret rslt.

Definition myfree (ptr : Z) : M unit :=
  let current := ptr - BLOCK_SIZE in
  store (set_free 1) current;;;
  emit Debug.

(** The state once the free block at [a] is taken. *)
Definition claim (a : Z) (st : state) : state :=
  with_mem (poke (set_free 0) a (mem st)) st.

(** What the kernel would hand out next, for a request of [s] bytes, is
    not null and is none of the headers [l]: the break, the address of the
    mapping, and the address of the second header inside the mapping. *)
Definition kernel_fresh (s : Z) (l : list Z) (o : OS) : Prop :=
  fresh l (fst (sbrk 0 o))
  /\ (let pt := fst (mmap (wrap (s + BLOCK_SIZE)) o) in
      pt <> MAP_FAILED ->
      fresh l pt /\ fresh (pt :: l) (pt + s + BLOCK_SIZE)).

(** Memory that the kernel hands out for a request of [s] bytes, if it
    hands out any, is new to the list [l]: the old break when [sbrk]
    accepts the increment, the address of a mapping, and, when the mapping
    is split, the address of its second header. *)
Definition grants_fresh (s : Z) (l : list Z) (o : OS) : Prop :=
  (forall pt o1 r o2,
     sbrk 0 o = (pt, o1) ->
     sbrk (to_intptr (wrap (s + BLOCK_SIZE))) o1 = (r, o2) ->
     r <> MAP_FAILED -> fresh l pt)
  /\ (forall pt o1,
        mmap (wrap (s + BLOCK_SIZE)) o = (pt, o1) -> pt <> MAP_FAILED ->
        fresh l pt
        /\ (no_split s = false -> fresh (pt :: l) (pt + s + BLOCK_SIZE))).

(** The requests for which no computation of [allocMap] wraps around or is
    cut when converted: [s + BLOCK_SIZE] fits [size_t], and the number of
    pages, with the increment, fits [int]. *)
Definition in_range (s : Z) : Prop :=
  0 <= s /\ s + BLOCK_SIZE < 2 ^ 64
  /\ 0 < PAGE_SIZE < 2 ^ 63
  /\ (s + BLOCK_SIZE) / PAGE_SIZE < 2 ^ 31 - 1.

(** The test for keeping the mapping in one block as the specification
    words it: the pages are filled exactly, or what is left after [s] and
    two headers is less than a header and one byte. *)
Definition stated_no_split (s : Z) : bool :=
  (totPage s * PAGE_SIZE =? s + BLOCK_SIZE)
  || (totPage s * PAGE_SIZE - s - 2 * BLOCK_SIZE <? BLOCK_SIZE + 1).

(** The list of [st'] is the list [l] with [l'] put behind it: at most two
    headers, none of them in [l]; a [head] that was set is unchanged. *)
Definition appended (st st' : state) (l l' : list Z) : Prop :=
  lseg (mem st') (head st') (l ++ l')
  /\ (length l' <= 2)%nat
  /\ (forall x, In x l' -> ~ In x l)
  /\ (head st <> NULL -> head st' = head st).

(** The number of pages that hold [s] bytes and a header. *)
Definition stated_pages (s : Z) : Z :=
  (s + BLOCK_SIZE + PAGE_SIZE - 1) / PAGE_SIZE.

(** The requests whose size, with the header, neither wraps around in
    [size_t] nor turns negative as the [intptr_t] given to [sbrk]. *)
Definition no_wrap (s : Z) : Prop :=
  in_range s /\ s + BLOCK_SIZE < 2 ^ 63.

(** What a call [mymalloc s] that returns has done, from a state with list
    [l]: the calls to the kernel, the value returned and the state left,
    path by path. *)
Inductive malloc_effect (s : Z) (l : list Z) (st : state) : Z -> state -> Prop :=
| eff_boot_fail pt o1 o2 :
    (* first call, sbrk failed *)
    l = [] ->
    sbrk 0 (os st) = (pt, o1) ->
    sbrk (to_intptr (wrap (s + BLOCK_SIZE))) o1 = (MAP_FAILED, o2) ->
    malloc_effect s l st BLOCK_SIZE
      (State (mem st) (head st) true false o2 (out st))
| eff_boot pt o1 r o2 :
    (* first call *)
    l = [] -> pt <> NULL ->
    sbrk 0 (os st) = (pt, o1) ->
    sbrk (to_intptr (wrap (s + BLOCK_SIZE))) o1 = (r, o2) ->
    r <> MAP_FAILED ->
    malloc_effect s l st (pt + BLOCK_SIZE)
      (State (<[pt := Block s NULL 0]> (mem st)) pt false false o2 (out st))
| eff_reuse a :
    (* a free block of the list is taken *)
    first_fit (mem st) s l = Some a ->
    malloc_effect s l st (a + BLOCK_SIZE)
      (with_out (Debug :: out st) (claim a st))
| eff_fail_brk pt o1 o2 :
    (* sbrk failed *)
    l <> [] -> first_fit (mem st) s l = None ->
    sbrk 0 (os st) = (pt, o1) ->
    sbrk (to_intptr (wrap (s + BLOCK_SIZE))) o1 = (MAP_FAILED, o2) ->
    malloc_effect s l st NULL
      (State (mem st) (head st) true false o2 (Perror :: out st))
| eff_fail_map o2 :
    (* mmap failed *)
    l <> [] -> first_fit (mem st) s l = None ->
    mmap (wrap (s + BLOCK_SIZE)) (os st) = (MAP_FAILED, o2) ->
    malloc_effect s l st NULL
      (State (mem st) (head st) false false o2 (Perror :: out st))
| eff_one_brk pt o1 r o2 :
    (* one new block at the break *)
    l <> [] -> first_fit (mem st) s l = None -> fresh l pt ->
    sbrk 0 (os st) = (pt, o1) ->
    sbrk (to_intptr (wrap (s + BLOCK_SIZE))) o1 = (r, o2) ->
    r <> MAP_FAILED ->
    malloc_effect s l st (pt + BLOCK_SIZE)
      (State (<[pt := Block s NULL 0]>
                (poke (set_next pt) (List.last l NULL) (mem st)))
             (head st) false false o2 (Debug :: out st))
| eff_one_map pt o2 :
    (* one new block that is a mapping *)
    l <> [] -> first_fit (mem st) s l = None -> fresh l pt ->
    mmap (wrap (s + BLOCK_SIZE)) (os st) = (pt, o2) ->
    pt <> MAP_FAILED -> no_split s = true ->
    malloc_effect s l st (pt + BLOCK_SIZE)
      (State (<[pt := Block s NULL 0]>
                (poke (set_next pt) (List.last l NULL) (mem st)))
             (head st) false false o2 (Debug :: out st))
| eff_two pt o2 :
    (* two new blocks in one mapping *)
    l <> [] -> first_fit (mem st) s l = None ->
    fresh l pt -> fresh (pt :: l) (pt + s + BLOCK_SIZE) ->
    mmap (wrap (s + BLOCK_SIZE)) (os st) = (pt, o2) ->
    pt <> MAP_FAILED -> no_split s = false ->
    malloc_effect s l st (pt + BLOCK_SIZE)
      (State (<[pt + s + BLOCK_SIZE :=
                  Block (wrap (totPage s * PAGE_SIZE - s - 2 * BLOCK_SIZE)) NULL 1]>
                (<[pt := Block s (pt + s + BLOCK_SIZE) 0]>
                   (poke (set_next pt) (List.last l NULL) (mem st))))
             (head st) false false o2 (Debug :: out st)).

(** The calls of the interface, and a call that returns with its result
    ([myfree] returns nothing: [NULL] stands for it).  The caller keeps to
    sizes that do not wrap and releases pointers whose header is in the
    list; a [mycalloc] that returns has filled a block of the list, not the
    pointer made from a first [sbrk] that failed. *)
Inductive call : Type :=
| Malloc (s : Z)
| Calloc (nmemb s : Z)
| Free (p : Z).

Inductive call_returns : call -> Z -> state -> state -> Prop :=
| ret_mymalloc fuel s l v st st' :
    lseg (mem st) (head st) l -> (length l <= fuel)%nat ->
    no_wrap s ->
    mymalloc fuel s st = Ret v st' ->
    call_returns (Malloc s) v st st'
| ret_mycalloc fuel nmemb s l v st st' :
    lseg (mem st) (head st) l -> (length l <= fuel)%nat ->
    no_wrap (wrap (nmemb * s)) ->
    mycalloc fuel nmemb s st = Ret v st' ->
    head st' <> NULL ->
    call_returns (Calloc nmemb s) v st st'
| ret_myfree p l st st' :
    lseg (mem st) (head st) l -> In (p - BLOCK_SIZE) l ->
    myfree p st = Ret tt st' ->
    call_returns (Free p) NULL st st'.

(** A sequence of calls with their results, run one after the other. *)
Inductive calls_return : state -> list (call * Z) -> state -> Prop :=
| calls_nil st : calls_return st [] st
| calls_cons st c v st1 tr st' :
    call_returns c v st st1 -> calls_return st1 tr st' ->
    calls_return st ((c, v) :: tr) st'.

End Allocator.

Arguments state OS : clear implicits.
Arguments M OS : clear implicits.

(** ** The layout of the blocks in memory *)

Section Layout.

Context {OS : Type} `{L : LawfulKernel OS}.

(** Every block of [l], header and [size] bytes, lies in memory the kernel
    handed out. *)
Definition backed (m : memory) (o : OS) (l : list Z) : Prop :=
  forall a b, In a l -> m !! a = Some b ->
    0 <= size b
    /\ forall x, a <= x < a + BLOCK_SIZE + size b -> owned o x.

(** No two blocks of [l] share a byte. *)
Definition apart (m : memory) (l : list Z) : Prop :=
  forall a1 a2 b1 b2, In a1 l -> In a2 l -> a1 <> a2 ->
    m !! a1 = Some b1 -> m !! a2 = Some b2 ->
    a1 + BLOCK_SIZE + size b1 <= a2 \/ a2 + BLOCK_SIZE + size b2 <= a1.

(** A state between two calls whose list [l] is laid out in memory as the
    allocator means it: blocks in memory of the process, one behind or
    before the other. *)
Definition laid_out (st : state OS) (l : list Z) : Prop :=
  lseg (mem st) (head st) l
  /\ listChange st = false
  /\ kernel_ok (os st)
  /\ backed (mem st) (os st) l
  /\ apart (mem st) l.

End Layout.

(** ** States to run the allocator on *)

(** A kernel with the break at [brk] and room left, and one that refuses
    every request. *)
Definition kernel_at (brk : Z) : toy := Toy brk 1048576 16777216 4.
Definition full_at (brk : Z) : toy := Toy brk brk 16777216 0.

(** The state of a process that never called the allocator. *)
Definition fresh_state : state toy :=
  State ∅ NULL false false (kernel_at 4096) [].
Definition fresh_state_full : state toy :=
  State ∅ NULL false false (full_at 4096) [].

(** A list of one block of 64 bytes in use at address 4096, the break
    right behind it. *)
Definition one_block : state toy :=
  State {[ 4096 := Block 64 NULL 0 ]} 4096 false false (kernel_at 4184) [].
Definition one_block_full : state toy :=
  State {[ 4096 := Block 64 NULL 0 ]} 4096 false false (full_at 4184) [].

(** Two free blocks of 200 and of 50 bytes, in this order. *)
Definition two_free : state toy :=
  State {[ 4096 := Block 200 4320 1; 4320 := Block 50 NULL 1 ]}
        4096 false false (kernel_at 4394) [].

(** ** Properties *)

Section Lists.

Implicit Types (m : memory) (l : list Z) (p a : Z).

Lemma lseg_cons_inv m p a l :
  lseg m p (a :: l) ->
  p = a /\ a <> NULL /\ exists b, m !! a = Some b /\ lseg m (next b) l.
Proof. intros H. exact H. Qed.

Lemma lseg_null m l : lseg m NULL l -> l = [].
Proof.
  destruct l as [|a l]; [reflexivity|].
  intros (-> & Ha & _). now elim Ha.
Qed.

(** The list that starts at an address is unique. *)
Lemma lseg_functional m l1 : forall p l2, lseg m p l1 -> lseg m p l2 -> l1 = l2.
Proof.
  induction l1 as [|a l1 IH]; intros p l2 H1 H2.
  - simpl in H1. subst p. symmetry. now apply lseg_null with m.
  - destruct H1 as (-> & Ha & b & Hb & H1).
    destruct l2 as [|a' l2].
    + simpl in H2. contradiction.
    + destruct H2 as (<- & _ & b' & Hb' & H2).
      rewrite Hb in Hb'. injection Hb' as <-.
      f_equal. now apply IH with (next b).
Qed.

(** Every header of the list starts a list of its own: the rest. *)
Lemma lseg_suffix m l1 : forall p a l2,
  lseg m p (l1 ++ a :: l2) -> lseg m a (a :: l2).
Proof.
  induction l1 as [|x l1 IH]; intros p a l2 H.
  - simpl in H. destruct H as (-> & H). now split.
  - destruct H as (-> & _ & b & _ & H). now apply IH with (next b).
Qed.

(** A list that ends in [NULL] visits no header twice. *)
Lemma lseg_NoDup m l : forall p, lseg m p l -> List.NoDup l.
Proof.
  induction l as [|a l IH]; intros p H; constructor.
  - intros Hin. apply in_split in Hin as (l1 & l2 & ->).
    assert (Hs : lseg m a (a :: l2)).
    { apply lseg_suffix with (l1 := a :: l1) (p := p). exact H. }
    destruct (lseg_cons_inv _ _ _ _ H) as (-> & _).
    pose proof (lseg_functional _ _ _ _ H Hs) as E.
    apply (f_equal (@length Z)) in E. simpl in E.
    rewrite length_app in E. simpl in E. lia.
  - destruct H as (_ & _ & b & _ & H). now apply IH with (next b).
Qed.

(** Every header of the list is a written, non-null block. *)
Lemma lseg_lookup m l : forall p a,
  lseg m p l -> In a l -> a <> NULL /\ exists b, m !! a = Some b.
Proof.
  induction l as [|x l IH]; intros p a H Hin; [contradiction|].
  destruct H as (-> & Hx & b & Hb & H).
  destruct Hin as [<- | Hin]; [eauto|].
  now apply IH with (next b).
Qed.

(** A memory that keeps the [next] field of every header of the list keeps
    the list. *)
Lemma lseg_frame m m' l : forall p,
  lseg m p l ->
  (forall a b, In a l -> m !! a = Some b ->
               exists b', m' !! a = Some b' /\ next b' = next b) ->
  lseg m' p l.
Proof.
  induction l as [|x l IH]; intros p H Hm; [exact H|].
  destruct H as (-> & Hx & b & Hb & H).
  destruct (Hm x b (or_introl eq_refl) Hb) as (b' & Hb' & E).
  split; [reflexivity|]. split; [assumption|].
  exists b'. split; [assumption|]. rewrite E.
  apply IH; [assumption|].
  intros a c Hin. apply Hm. now right.
Qed.

Lemma poke_eq upd a m : poke upd a m !! a = Some (upd (default blank (m !! a))).
Proof. unfold poke. apply lookup_insert_eq. Qed.

Lemma poke_ne upd a x m : a <> x -> poke upd a m !! x = m !! x.
Proof. intros H. unfold poke. now apply lookup_insert_ne. Qed.

(** Writing the [free] flag or the [size] of a block keeps the list. *)
Lemma lseg_poke_keep upd a m l p :
  (forall b, next (upd b) = next b) ->
  lseg m p l -> lseg (poke upd a m) p l.
Proof.
  intros Hu H. apply lseg_frame with m; [assumption|].
  intros x b _ Hb. destruct (decide (a = x)) as [->|Hne].
  - rewrite poke_eq, Hb. simpl. eauto.
  - rewrite poke_ne by assumption. eauto.
Qed.

(** Linking a list [l2] behind the last header of [l]: only the [next]
    field of that header changes. *)
Lemma lseg_append m m' l : forall p q l2,
  lseg m p l -> l <> [] ->
  (forall a, In a (removelast l) -> m' !! a = m !! a) ->
  (forall b, m !! List.last l NULL = Some b ->
             m' !! List.last l NULL = Some (set_next q b)) ->
  lseg m' q l2 ->
  lseg m' p (l ++ l2).
Proof.
  induction l as [|x l IH]; intros p q l2 H Hne Hold Hlast H2; [congruence|].
  destruct H as (-> & Hx & b & Hb & H).
  split; [reflexivity|]. split; [assumption|].
  destruct l as [|y l].
  - simpl in H, Hlast. exists (set_next q b).
    split; [now apply Hlast|]. exact H2.
  - exists b. split.
    + rewrite Hold; [assumption|]. now left.
    + apply IH with q; try assumption; [discriminate|].
      intros a Ha. apply Hold. now right.
Qed.

Lemma last_In l d : l <> [] -> In (List.last l d) l.
Proof.
  induction l as [|x [|y l] IH]; intros H; [congruence|now left|].
  right. apply IH. discriminate.
Qed.

Lemma removelast_In (x : Z) l : In x (removelast l) -> In x l.
Proof.
  induction l as [|y [|z l] IH]; intros H; try contradiction.
  destruct H as [->|H]; [now left|right; now apply IH].
Qed.

Lemma NoDup_last_removelast l d :
  List.NoDup l -> ~ In (List.last l d) (removelast l).
Proof.
  induction l as [|x [|y l] IH]; intros H Hin; try contradiction.
  apply List.NoDup_cons_iff in H as [Hx H].
  destruct Hin as [E|Hin].
  - apply Hx. rewrite E.
    change (List.last (x :: y :: l) d) with (List.last (y :: l) d).
    apply last_In. discriminate.
  - now apply IH.
Qed.

(** One new block behind the list. *)
Lemma lseg_link1 m l p q s f :
  lseg m p l -> l <> [] -> fresh l q ->
  lseg (<[q := Block s NULL f]> (poke (set_next q) (List.last l NULL) m)) p (l ++ [q]).
Proof.
  intros H Hne [Hq Hnin].
  pose proof (lseg_NoDup _ _ _ H) as Hnd.
  apply lseg_append with (m := m) (q := q); try assumption.
  - intros a Ha.
    rewrite lookup_insert_ne by (intros ->; apply Hnin; now apply removelast_In).
    apply poke_ne. intros <-. now apply (NoDup_last_removelast l NULL).
  - intros b Hb.
    rewrite lookup_insert_ne by (intros ->; apply Hnin; now apply last_In).
    rewrite poke_eq, Hb. reflexivity.
  - split; [reflexivity|]. split; [assumption|].
    exists (Block s NULL f). split; [apply lookup_insert_eq|reflexivity].
Qed.

(** Two new blocks behind the list, the first linked to the second. *)
Lemma lseg_link2 m l p q1 q2 s1 s2 f1 f2 :
  lseg m p l -> l <> [] -> fresh l q1 -> fresh (q1 :: l) q2 ->
  lseg (<[q2 := Block s2 NULL f2]>
          (<[q1 := Block s1 q2 f1]> (poke (set_next q1) (List.last l NULL) m)))
       p (l ++ [q1; q2]).
Proof.
  intros H Hne [Hq1 Hn1] [Hq2 Hn2].
  pose proof (lseg_NoDup _ _ _ H) as Hnd.
  assert (Hd : q2 <> q1) by (intros ->; apply Hn2; now left).
  assert (Hn2' : ~ In q2 l) by (intros Hin; apply Hn2; now right).
  apply lseg_append with (m := m) (q := q1); try assumption.
  - intros a Ha.
    rewrite lookup_insert_ne by (intros ->; apply Hn2'; now apply removelast_In).
    rewrite lookup_insert_ne by (intros ->; apply Hn1; now apply removelast_In).
    apply poke_ne. intros <-. now apply (NoDup_last_removelast l NULL).
  - intros b Hb.
    rewrite lookup_insert_ne by (intros ->; apply Hn2'; now apply last_In).
    rewrite lookup_insert_ne by (intros ->; apply Hn1; now apply last_In).
    rewrite poke_eq, Hb. reflexivity.
  - split; [reflexivity|]. split; [assumption|].
    exists (Block s1 q2 f1). split.
    + rewrite lookup_insert_ne by assumption. apply lookup_insert_eq.
    + simpl. split; [reflexivity|]. split; [assumption|].
      exists (Block s2 NULL f2). split; [apply lookup_insert_eq|reflexivity].
Qed.

(** The search over all but the last header, then the last one. *)
Lemma find_removelast_Some (f : Z -> bool) l a :
  find f (removelast l) = Some a -> find f l = Some a.
Proof.
  induction l as [|x [|y l] IH]; intros H; try discriminate.
  change (removelast (x :: y :: l)) with (x :: removelast (y :: l)) in H.
  simpl in H |- *. destruct (f x); [assumption|]. now apply IH.
Qed.

Lemma find_removelast_None (f : Z -> bool) l d :
  l <> [] -> find f (removelast l) = None ->
  find f l = if f (List.last l d) then Some (List.last l d) else None.
Proof.
  induction l as [|x [|y l] IH]; intros Hne H; [congruence|reflexivity|].
  change (removelast (x :: y :: l)) with (x :: removelast (y :: l)) in H.
  change (List.last (x :: y :: l) d) with (List.last (y :: l) d).
  simpl in H |- *. destruct (f x); [discriminate|].
  apply IH; [discriminate|assumption].
Qed.

Lemma find_first (f : Z -> bool) l1 a l2 :
  (forall x, In x l1 -> f x = false) -> f a = true ->
  find f (l1 ++ a :: l2) = Some a.
Proof.
  induction l1 as [|x l1 IH]; intros Hno Ha; simpl.
  - now rewrite Ha.
  - rewrite (Hno x) by now left. apply IH; [|assumption].
    intros y Hy. apply Hno. now right.
Qed.

Lemma find_all_false (f : Z -> bool) l :
  (forall x, In x l -> f x = false) -> find f l = None.
Proof.
  induction l as [|x l IH]; intros H; [reflexivity|]. simpl.
  rewrite (H x) by now left. apply IH. intros y Hy. apply H. now right.
Qed.

End Lists.

Section Specs.

Context {OS : Type} `{K : Kernel OS}.

Implicit Types (st : state OS) (l : list Z) (s p a : Z).

(** *** The search *)

Lemma loop_spec s l : forall p fuel st,
  lseg (mem st) p l -> l <> [] -> (length l <= fuel)%nat ->
  nextBlock_loop fuel s p st =
    match first_fit (mem st) s (removelast l) with
    | Some a => Ret (Return a) (with_mutex ListChange_mx false (claim a st))
    | None => Ret (Break (List.last l NULL)) st
    end.
Proof.
  induction l as [|x l IH]; intros p fuel st H Hne Hf; [congruence|].
  destruct fuel as [|fuel]; [simpl in Hf; lia|].
  destruct H as (-> & Hx & b & Hb & H).
  apply Z.eqb_neq in Hx.
  simpl nextBlock_loop. unfold bind, load. rewrite Hx, Hb. cbv beta iota.
  destruct l as [|y l].
  - simpl in H. rewrite H. reflexivity.
  - pose proof H as (Hy & Hy0 & _). apply Z.eqb_neq in Hy0.
    rewrite Hy, Hy0. repeat (progress (cbv beta iota; rewrite ?Hb)).
    change (removelast (x :: y :: l)) with (x :: removelast (y :: l)).
    change (List.last (x :: y :: l) NULL) with (List.last (y :: l) NULL).
    unfold first_fit. simpl find. unfold fits at 1. rewrite Hb.
    destruct (negb (free b =? 0) && (s <=? size b)).
    + unfold store, unlock, ret. rewrite Hx. reflexivity.
    + repeat (progress (cbv beta iota; rewrite ?Hb)). rewrite Hy.
      apply IH; [now rewrite Hy in H|discriminate|simpl in Hf |- *; lia].
Qed.

Lemma nextBlock_spec fuel s st l :
  lseg (mem st) (head st) l -> l <> [] -> listChange st = false ->
  (length l <= fuel)%nat ->
  nextBlock fuel s st =
    match first_fit (mem st) s l with
    | Some a => Ret a (claim a st)
    | None =>
      if upage <=? wrap (s + BLOCK_SIZE) then allocMap s (List.last l NULL) st
      else expandHeap s (List.last l NULL) st
    end.
Proof.
  intros H Hne Hl Hf.
  destruct (lseg_lookup _ _ _ _ H (last_In l NULL Hne)) as (Hz & b & Hb).
  apply Z.eqb_neq in Hz.
  unfold nextBlock, bind at 1 2 3, lock, get_head. simpl held. rewrite Hl.
  cbv beta iota.
  rewrite (loop_spec s l) by assumption. simpl mem.
  unfold first_fit.
  destruct (find (fits (mem st) s) (removelast l)) as [a|] eqn:E.
  - rewrite (find_removelast_Some _ _ _ E). unfold ret.
    destruct st; simpl in *. now subst.
  - rewrite (find_removelast_None _ _ NULL Hne E).
    change (mem st) with (mem (with_mutex ListChange_mx true st)) in Hb.
    unfold bind, load. rewrite Hz, Hb. cbv beta iota.
    rewrite Hb. cbv beta iota. unfold fits.
    change (mem (with_mutex ListChange_mx true st)) with (mem st) in Hb.
    rewrite Hb.
    destruct (negb (free b =? 0) && (s <=? size b)).
    + unfold store, unlock, ret. rewrite Hz. destruct st; simpl in *. now subst.
    + unfold unlock. replace (with_mutex _ _ _) with st.
      * now destruct (upage <=? wrap (s + BLOCK_SIZE)).
      * destruct st; simpl in *. now subst.
Qed.

(** *** Growing the list *)

Lemma poke_poke u1 u2 p (m : memory) :
  poke u2 p (poke u1 p m) = <[p := u2 (u1 (default blank (m !! p)))]> m.
Proof.
  unfold poke. rewrite lookup_insert_eq. simpl. apply insert_insert_eq.
Qed.

Lemma poke3 u1 u2 u3 p (m : memory) :
  poke u3 p (poke u2 p (poke u1 p m))
  = <[p := u3 (u2 (u1 (default blank (m !! p))))]> m.
Proof.
  unfold poke. rewrite !lookup_insert_eq, !insert_insert_eq. reflexivity.
Qed.

Lemma init_mem_eq s st :
  memChange st = false -> listChange st = false ->
  init_mem s st =
    let (pt, o1) := sbrk 0 (os st) in
    let (r, o2) := sbrk (to_intptr (wrap (s + BLOCK_SIZE))) o1 in
    if r =? MAP_FAILED
    then Ret NULL (State (mem st) (head st) true false o2 (out st))
    else if pt =? NULL then Crash NullDeref
    else Ret pt (State (<[pt := Block s NULL 0]> (mem st)) pt false false o2 (out st)).
Proof.
  destruct st as [m h mc lc o ev]. simpl. intros -> ->.
  unfold init_mem, bind at 1 2 3, lock, call_sbrk. simpl.
  destruct (sbrk 0 o) as [pt o1]. simpl.
  destruct (sbrk _ o1) as [r o2]. simpl.
  destruct (r =? MAP_FAILED); [reflexivity|].
  unfold bind, unlock, lock, put_head, get_head, store. simpl.
  destruct (pt =? NULL) eqn:Ept; [reflexivity|].
  repeat (progress (simpl; rewrite ?Ept)).
  rewrite poke3. reflexivity.
Qed.

Lemma expandHeap_eq s last st :
  memChange st = false -> listChange st = false -> last <> NULL ->
  expandHeap s last st =
    let (pt, o1) := sbrk 0 (os st) in
    let (r, o2) := sbrk (to_intptr (wrap (s + BLOCK_SIZE))) o1 in
    if r =? MAP_FAILED
    then Ret NULL (State (mem st) (head st) true false o2 (out st))
    else if pt =? NULL then Crash NullDeref
    else Ret pt (State (<[pt := Block s NULL 0]> (poke (set_next pt) last (mem st)))
                       (head st) false false o2 (out st)).
Proof.
  destruct st as [m h mc lc o ev]. simpl. intros -> -> Hl.
  apply Z.eqb_neq in Hl.
  unfold expandHeap, bind at 1 2 3, lock, call_sbrk. simpl.
  destruct (sbrk 0 o) as [pt o1]. simpl.
  destruct (sbrk _ o1) as [r o2]. simpl.
  destruct (r =? MAP_FAILED); [reflexivity|].
  unfold bind, unlock, lock, store. simpl. rewrite Hl. simpl.
  destruct (pt =? NULL) eqn:Ept; [reflexivity|].
  repeat (progress (simpl; rewrite ?Ept)).
  rewrite poke3. reflexivity.
Qed.

Lemma allocMap_eq s last st :
  memChange st = false -> listChange st = false -> last <> NULL ->
  allocMap s last st =
    let (pt, o1) := mmap (wrap (s + BLOCK_SIZE)) (os st) in
    if pt =? MAP_FAILED
    then Ret NULL (State (mem st) (head st) false false o1 (out st))
    else if pt =? NULL then Crash NullDeref
    else if no_split s
    then Ret pt (State (<[pt := Block s NULL 0]> (poke (set_next pt) last (mem st)))
                       (head st) false false o1 (out st))
    else if pt + s + BLOCK_SIZE =? NULL then Crash NullDeref
    else Ret pt
      (State (<[pt + s + BLOCK_SIZE :=
                  Block (wrap (totPage s * PAGE_SIZE - s - 2 * BLOCK_SIZE)) NULL 1]>
                (<[pt := Block s (pt + s + BLOCK_SIZE) 0]>
                   (poke (set_next pt) last (mem st))))
             (head st) false false o1 (out st)).
Proof.
  destruct st as [m h mc lc o ev]. simpl. intros -> -> Hl.
  apply Z.eqb_neq in Hl.
  unfold allocMap, bind at 1 2 3, lock, call_mmap, unlock. simpl.
  destruct (mmap _ o) as [pt o1]. simpl.
  destruct (pt =? MAP_FAILED); [reflexivity|].
  unfold bind at 1. simpl.
  destruct (no_split s).
  - unfold bind, store. simpl. rewrite Hl. simpl.
    destruct (pt =? NULL) eqn:Ept; [reflexivity|].
    repeat (progress (simpl; rewrite ?Ept)).
    rewrite poke3. reflexivity.
  - unfold bind, store. simpl. rewrite Hl. simpl.
    destruct (pt =? NULL) eqn:Ept; [reflexivity|].
    repeat (progress (simpl; rewrite ?Ept)).
    destruct (pt + s + BLOCK_SIZE =? NULL) eqn:Eq2; [reflexivity|].
    repeat (progress (simpl; rewrite ?Eq2)).
    rewrite !poke3. reflexivity.
Qed.

(** With [memChange] left locked, every path that asks the kernel for
    memory blocks for ever. *)
Lemma growth_deadlock s last st :
  memChange st = true ->
  init_mem s st = Deadlock /\ expandHeap s last st = Deadlock
  /\ allocMap s last st = Deadlock.
Proof.
  intros H. unfold init_mem, expandHeap, allocMap, bind, lock. simpl.
  now rewrite H.
Qed.

(** What a call of [nextBlock] that returns leaves behind: the list with at
    most two headers added at its end, and, unless the result is null, a
    block in use of at least the requested size at the address returned. *)
Lemma nextBlock_post fuel s st l b st' :
  lseg (mem st) (head st) l -> l <> [] -> listChange st = false ->
  kernel_fresh s l (os st) -> (length l <= fuel)%nat ->
  nextBlock fuel s st = Ret b st' ->
  exists l',
    lseg (mem st') (head st') (l ++ l') /\ (length l' <= 2)%nat
    /\ listChange st' = false /\ head st' = head st /\ out st' = out st
    /\ (b <> NULL ->
        In b (l ++ l')
        /\ exists blk, mem st' !! b = Some blk /\ s <= size blk /\ free blk = 0).
Proof.
  intros H Hne Hl [Hbrk Hmap] Hf.
  rewrite (nextBlock_spec fuel s st l) by assumption.
  pose proof (last_In l NULL Hne) as Hin.
  destruct (lseg_lookup _ _ _ _ H Hin) as (Hz & _).
  unfold first_fit. destruct (find (fits (mem st) s) l) as [a|] eqn:E.
  - (* a block of the list is taken *)
    intros [= <- <-]. exists []. rewrite app_nil_r.
    apply find_some in E as [Ha Hfit].
    split_and!; try (assumption || reflexivity || (simpl; lia)).
    + now apply lseg_poke_keep.
    + intros _. split; [assumption|].
      unfold fits in Hfit. simpl. rewrite poke_eq.
      destruct (mem st !! a) as [blk|]; [|discriminate]. simpl.
      apply andb_prop in Hfit as [_ Hs]. apply Z.leb_le in Hs.
      eexists. split; [reflexivity|]. now split.
  - destruct (memChange st) eqn:Hm.
    { destruct (growth_deadlock s (List.last l NULL) st Hm) as (_ & -> & ->).
      now destruct (upage <=? wrap (s + BLOCK_SIZE)). }
    destruct (upage <=? wrap (s + BLOCK_SIZE)).
    + (* a mapping *)
      rewrite allocMap_eq by assumption. simpl in Hmap.
      destruct (mmap (wrap (s + BLOCK_SIZE)) (os st)) as [pt o1]. simpl in Hmap.
      destruct (pt =? MAP_FAILED) eqn:Ef.
      { intros [= <- <-]. exists []. rewrite app_nil_r. simpl.
        split_and!; try (assumption || reflexivity || lia). }
      apply Z.eqb_neq in Ef. destruct (Hmap Ef) as [[Hp Hnp] Hq].
      destruct (pt =? NULL); [discriminate|].
      destruct (no_split s).
      * intros [= <- <-]. exists [pt]. simpl.
        split_and!; try (assumption || reflexivity || lia).
        -- apply lseg_link1; try assumption. now split.
        -- intros _. split; [apply in_or_app; right; now left|].
           eexists. split; [apply lookup_insert_eq|].
           simpl. split; [lia|reflexivity].
      * destruct (pt + s + BLOCK_SIZE =? NULL); [discriminate|].
        intros [= <- <-]. exists [pt; pt + s + BLOCK_SIZE]. simpl.
        split_and!; try (assumption || reflexivity || lia).
        -- apply lseg_link2; try assumption. now split.
        -- intros _. split; [apply in_or_app; right; now left|].
           eexists. split.
           ++ rewrite lookup_insert_ne; [apply lookup_insert_eq|].
              intros E'. destruct Hq as [_ Hq]. apply Hq. left. now rewrite E'.
           ++ simpl. split; [lia|reflexivity].
    + (* the break *)
      rewrite expandHeap_eq by assumption.
      destruct (sbrk 0 (os st)) as [pt o1]. simpl in Hbrk.
      destruct (sbrk _ o1) as [r o2].
      destruct (r =? MAP_FAILED).
      { intros [= <- <-]. exists []. rewrite app_nil_r. simpl.
        split_and!; try (assumption || reflexivity || lia). }
      destruct (pt =? NULL); [discriminate|].
      intros [= <- <-]. exists [pt]. simpl.
      split_and!; try (assumption || reflexivity || lia).
      * now apply lseg_link1.
      * intros _. split; [apply in_or_app; right; now left|].
        eexists. split; [apply lookup_insert_eq|].
        simpl. split; [lia|reflexivity].
Qed.

(** *** The entry points *)

Lemma mymalloc_eq fuel s st :
  listChange st = false ->
  mymalloc fuel s st =
    if head st =? 0 then
      match init_mem s st with
      | Ret b st' => Ret (b + BLOCK_SIZE) st'
      | Crash c => Crash c
      | Deadlock => Deadlock
      | OutOfFuel => OutOfFuel
      end
    else
      match nextBlock fuel s st with
      | Ret b st' =>
        if b =? NULL then Ret NULL (with_out (Perror :: out st') st')
        else Ret (b + BLOCK_SIZE) (with_out (Debug :: out st') st')
      | Crash c => Crash c
      | Deadlock => Deadlock
      | OutOfFuel => OutOfFuel
      end.
Proof.
  intros Hl.
  assert (E : with_mutex ListChange_mx false (with_mutex ListChange_mx true st) = st).
  { destruct st; simpl in *. now subst. }
  unfold mymalloc, bind at 1 2, lock, get_head. simpl held. rewrite Hl.
  cbv beta iota. change (head (with_mutex ListChange_mx true st)) with (head st).
  destruct (head st =? 0).
  - unfold bind at 1, unlock. rewrite E. unfold bind, ret.
    now destruct (init_mem s st).
  - unfold bind at 1, unlock. rewrite E. unfold bind at 1.
    destruct (nextBlock fuel s st) as [b st'| | |]; try reflexivity.
    now destruct (b =? NULL).
Qed.

Lemma myfree_eq ptr st :
  ptr - BLOCK_SIZE <> NULL ->
  myfree ptr st =
    Ret tt (State (poke (set_free 1) (ptr - BLOCK_SIZE) (mem st)) (head st)
                  (memChange st) (listChange st) (os st) (Debug :: out st)).
Proof.
  intros H. apply Z.eqb_neq in H.
  unfold myfree, bind, store, emit. rewrite H. reflexivity.
Qed.

Lemma mycalloc_eq fuel nmemb s st :
  mycalloc fuel nmemb s st =
    match mymalloc fuel (wrap (nmemb * s)) st with
    | Ret r st1 =>
      if (r =? NULL) && (0 <? wrap (nmemb * s)) then Crash NullMemset
      else Ret r (with_out (Debug :: Memset r (wrap (nmemb * s)) :: out st1) st1)
    | Crash c => Crash c
    | Deadlock => Deadlock
    | OutOfFuel => OutOfFuel
    end.
Proof.
  unfold mycalloc, bind at 1.
  destruct (mymalloc fuel (wrap (nmemb * s)) st) as [r st1| | |]; try reflexivity.
  unfold bind, memset, emit, ret.
  now destruct ((r =? NULL) && (0 <? wrap (nmemb * s))).
Qed.

Lemma lseg_head_not_null (m : memory) p a l : lseg m p (a :: l) -> p <> NULL.
Proof. now intros (-> & Ha & _). Qed.

(** What a call of [mymalloc] that returns leaves behind. *)
Lemma mymalloc_post fuel s st l v st' :
  lseg (mem st) (head st) l -> listChange st = false ->
  kernel_fresh s l (os st) -> (length l <= fuel)%nat ->
  mymalloc fuel s st = Ret v st' ->
  exists l',
    lseg (mem st') (head st') (l ++ l') /\ (length l' <= 2)%nat
    /\ listChange st' = false
    /\ (head st <> NULL -> head st' = head st)
    /\ (v <> NULL -> head st' <> NULL ->
        In (v - BLOCK_SIZE) (l ++ l')
        /\ exists blk, mem st' !! (v - BLOCK_SIZE) = Some blk
                       /\ s <= size blk /\ free blk = 0).
Proof.
  intros H Hl Hk Hf. rewrite mymalloc_eq by assumption.
  destruct (head st =? 0) eqn:Eh.
  - apply Z.eqb_eq in Eh. rewrite Eh in H. apply lseg_null in H. subst l.
    destruct (memChange st) eqn:Hm.
    { destruct (growth_deadlock s 0 st Hm) as (-> & _). discriminate. }
    rewrite init_mem_eq by assumption. destruct Hk as [[Hp _] _].
    destruct (sbrk 0 (os st)) as [pt o1]. simpl in Hp.
    destruct (sbrk _ o1) as [r o2].
    destruct (r =? MAP_FAILED).
    + intros [= <- <-]. exists []. simpl.
      split_and!; try (assumption || reflexivity || lia). now intros _ [].
    + destruct (pt =? NULL); [discriminate|].
      intros [= <- <-]. exists [pt]. simpl.
      replace (pt + BLOCK_SIZE - BLOCK_SIZE) with pt by lia.
      split_and!; try (assumption || reflexivity || lia).
      * eexists. split; [apply lookup_insert_eq|reflexivity].
      * now rewrite Eh.
      * intros _ _. split; [now left|].
        eexists. split; [apply lookup_insert_eq|]. simpl. split; [lia|reflexivity].
  - apply Z.eqb_neq in Eh.
    assert (Hne : l <> []) by (intros ->; simpl in H; contradiction).
    destruct (nextBlock fuel s st) as [b st1| | |] eqn:En; try discriminate.
    destruct (nextBlock_post _ _ _ _ _ _ H Hne Hl Hk Hf En)
      as (l' & H1 & Hlen & Hl1 & Hh1 & _ & Hb).
    destruct (b =? NULL) eqn:Eb; intros [= <- <-]; exists l'; simpl.
    + split_and!; try (assumption || reflexivity || lia); try (intros; assumption).
    + apply Z.eqb_neq in Eb.
      replace (b + BLOCK_SIZE - BLOCK_SIZE) with b by lia.
      split_and!; try (assumption || reflexivity || lia); try (intros; assumption).
      intros _ _. now apply Hb.
Qed.

(** *** Search and release *)

(** C4: the search returns the first header in list order whose block is
    free and of size at least [s], whatever comes behind it: no header
    before it passes the test, and a later, tighter fit is not
    considered.  The block is marked in use and nothing else changes. *)
Theorem search_is_first_fit fuel s st l1 a l2 :
  lseg (mem st) (head st) (l1 ++ a :: l2) ->
  listChange st = false ->
  (length (l1 ++ a :: l2) <= fuel)%nat ->
  (forall x, In x l1 -> fits (mem st) s x = false) ->
  fits (mem st) s a = true ->
  nextBlock fuel s st = Ret a (claim a st).
Proof.
  intros H Hl Hf Hno Ha.
  rewrite (nextBlock_spec fuel s st (l1 ++ a :: l2)); try assumption.
  - unfold first_fit. now rewrite find_first.
  - now destruct l1.
Qed.

(** C10: [nextBlock] reads [head->next] unguarded, so with a null [head]
    it dereferences the null pointer; [mymalloc] does not call it then,
    but runs [init_mem].  With a non-null [head] that starts a list, the
    traversal dereferences headers of the list only and reaches the last
    one: either it returns the first header that fits, or no header of the
    list fits, the last one included, and the request goes on to
    [allocMap] or [expandHeap] with the last header. *)
Theorem search_head_not_null fuel s st :
  listChange st = false ->
  (head st = NULL -> nextBlock (S fuel) s st = Crash NullDeref)
  /\ (head st = NULL ->
      mymalloc fuel s st = bind (init_mem s) (fun b => ret (b + BLOCK_SIZE)) st)
  /\ (forall l,
        head st <> NULL -> lseg (mem st) (head st) l ->
        (length l <= fuel)%nat ->
        In (List.last l NULL) l /\ List.last l NULL <> NULL
        /\ ((exists a, In a l /\ fits (mem st) s a = true
                       /\ nextBlock fuel s st = Ret a (claim a st))
            \/ ((forall x, In x l -> fits (mem st) s x = false)
                /\ nextBlock fuel s st =
                   if upage <=? wrap (s + BLOCK_SIZE)
                   then allocMap s (List.last l NULL) st
                   else expandHeap s (List.last l NULL) st))).
Proof.
  intros Hl. split; [|split].
  - intros Hh. unfold nextBlock, bind at 1 2 3, lock, get_head.
    simpl held. rewrite Hl. cbv beta iota.
    change (head (with_mutex ListChange_mx true st)) with (head st).
    rewrite Hh. reflexivity.
  - intros Hh. rewrite mymalloc_eq by assumption. rewrite Hh. simpl.
    unfold bind, ret. now destruct (init_mem s st).
  - intros l Hh H Hf.
    assert (Hne : l <> []).
    { intros ->. simpl in H. contradiction. }
    pose proof (last_In l NULL Hne) as Hin.
    destruct (lseg_lookup _ _ _ _ H Hin) as (Hz & _).
    split; [assumption|]. split; [assumption|].
    rewrite (nextBlock_spec fuel s st l) by assumption.
    unfold first_fit. destruct (find (fits (mem st) s) l) as [a|] eqn:E.
    + left. exists a. apply find_some in E as [Ha Hfit]. auto.
    + right. split; [|reflexivity]. now apply find_none.
Qed.



(** *** The arithmetic of [allocMap] *)

Lemma wrap_small z : 0 <= z < 2 ^ 64 -> wrap z = z.
Proof. intros H. unfold wrap. now apply Z.mod_small. Qed.

Lemma to_int_small z : - 2 ^ 31 <= z < 2 ^ 31 -> to_int z = z.
Proof. intros H. unfold to_int. rewrite Z.mod_small; lia. Qed.

(** In range, [totPage s] is [s + BLOCK_SIZE] rounded up to whole pages. *)
Lemma totPage_in_range s :
  in_range s ->
  totPage s = (s + BLOCK_SIZE) / PAGE_SIZE
              + (if (s + BLOCK_SIZE) mod PAGE_SIZE =? 0 then 0 else 1).
Proof.
  intros (Hs & Hb & Hp & Hq). unfold totPage, upage.
  rewrite (wrap_small (s + BLOCK_SIZE)) by (unfold BLOCK_SIZE in *; lia).
  rewrite (wrap_small PAGE_SIZE) by lia.
  assert (0 <= (s + BLOCK_SIZE) / PAGE_SIZE).
  { apply Z.div_pos; unfold BLOCK_SIZE; lia. }
  rewrite to_int_small by lia.
  destruct ((s + BLOCK_SIZE) mod PAGE_SIZE =? 0); simpl; lia.
Qed.

Lemma totPage_rounds_up s :
  in_range s ->
  PAGE_SIZE * (totPage s - 1) < s + BLOCK_SIZE <= PAGE_SIZE * totPage s
  /\ (totPage s * PAGE_SIZE = s + BLOCK_SIZE
      <-> (s + BLOCK_SIZE) mod PAGE_SIZE = 0).
Proof.
  intros Hr. rewrite (totPage_in_range s Hr).
  destruct Hr as (Hs & Hb & Hp & Hq).
  assert (Hp0 : PAGE_SIZE <> 0) by lia.
  assert (Hp1 : 0 < PAGE_SIZE) by lia.
  pose proof (Z.div_mod (s + BLOCK_SIZE) PAGE_SIZE Hp0) as Hdm.
  pose proof (Z.mod_pos_bound (s + BLOCK_SIZE) PAGE_SIZE Hp1) as Hm.
  destruct ((s + BLOCK_SIZE) mod PAGE_SIZE =? 0) eqn:E.
  - apply Z.eqb_eq in E. lia.
  - apply Z.eqb_neq in E. lia.
Qed.

(** In range, the test of [allocMap] in plain arithmetic: the pages are
    filled exactly, or what is left behind the first block is less than a
    header and one byte. *)
Lemma no_split_in_range s :
  in_range s ->
  no_split s = true
  <-> (totPage s * PAGE_SIZE = s + BLOCK_SIZE
       \/ totPage s * PAGE_SIZE - s - BLOCK_SIZE < BLOCK_SIZE + 1).
Proof.
  intros Hr. destruct (totPage_rounds_up s Hr) as (Hup & Hex).
  pose proof Hr as (Hs & Hb & Hp & Hq).
  unfold no_split, upage.
  rewrite (wrap_small (s + BLOCK_SIZE)) by (unfold BLOCK_SIZE in *; lia).
  rewrite (wrap_small PAGE_SIZE) by lia.
  rewrite (wrap_small (totPage s * PAGE_SIZE - s - BLOCK_SIZE)) by lia.
  rewrite orb_true_iff, Z.eqb_eq, Z.ltb_lt. now rewrite Hex.
Qed.

Lemma split_size_in_range s :
  in_range s -> no_split s = false ->
  wrap (totPage s * PAGE_SIZE - s - 2 * BLOCK_SIZE)
  = totPage s * PAGE_SIZE - s - 2 * BLOCK_SIZE
  /\ 0 < totPage s * PAGE_SIZE - s - 2 * BLOCK_SIZE.
Proof.
  intros Hr Hn. destruct (totPage_rounds_up s Hr) as (Hup & Hex).
  assert (Hc : ~ (totPage s * PAGE_SIZE = s + BLOCK_SIZE
       \/ totPage s * PAGE_SIZE - s - BLOCK_SIZE < BLOCK_SIZE + 1)).
  { rewrite <- (no_split_in_range s Hr). now rewrite Hn. }
  destruct Hr as (Hs & Hb & Hp & Hq).
  split; [apply wrap_small|]; unfold BLOCK_SIZE in *; lia.
Qed.

(** *** Direct mapping *)

(** C3 (amended): when the mapping succeeds, it is kept in one block
    exactly when the test of [allocMap] holds; for a request in range the
    test says that [s] and one header fill the rounded-up pages, or that
    what is left of the pages after [s] and one header is less than a
    header and one byte.  The block is then written at the start of the
    mapping with [size = s], in use, with no successor, and is linked
    behind the last header of the list. *)
Theorem single_block_mapping s st l pt o1 :
  memChange st = false -> listChange st = false ->
  lseg (mem st) (head st) l -> l <> [] ->
  mmap (wrap (s + BLOCK_SIZE)) (os st) = (pt, o1) ->
  pt <> MAP_FAILED -> fresh l pt ->
  let st1 :=
    State (<[pt := Block s NULL 0]> (poke (set_next pt) (List.last l NULL) (mem st)))
          (head st) false false o1 (out st) in
  (no_split s = true <-> allocMap s (List.last l NULL) st = Ret pt st1)
  /\ lseg (mem st1) (head st1) (l ++ [pt])
  /\ (in_range s ->
      (no_split s = true
       <-> (totPage s * PAGE_SIZE = s + BLOCK_SIZE
            \/ totPage s * PAGE_SIZE - s - BLOCK_SIZE < BLOCK_SIZE + 1))
      /\ PAGE_SIZE * (totPage s - 1) < s + BLOCK_SIZE <= PAGE_SIZE * totPage s).
Proof.
  intros Hm Hl H Hne Emap Hf Hfr st1.
  pose proof (last_In l NULL Hne) as Hin.
  destruct (lseg_lookup _ _ _ _ H Hin) as (Hz & _).
  pose proof Hfr as [Hp _]. apply Z.eqb_neq in Hf, Hp.
  split; [|split].
  - rewrite allocMap_eq by assumption. rewrite Emap, Hf, Hp.
    destruct (no_split s); split; try reflexivity; try discriminate.
    destruct (pt + s + BLOCK_SIZE =? NULL) eqn:Eq; [discriminate|].
    intros [= E]. exfalso.
    apply (f_equal (fun m : memory => m !! pt)) in E.
    rewrite lookup_insert_eq in E.
    destruct (decide (pt + s + BLOCK_SIZE = pt)) as [Eq2|Hne2].
    + rewrite Eq2, lookup_insert_eq in E. discriminate.
    + rewrite lookup_insert_ne, lookup_insert_eq in E by assumption.
      injection E as E. apply Z.eqb_neq in Eq. contradiction.
  - now apply lseg_link1.
  - intros Hr. split; [now apply no_split_in_range|now apply totPage_rounds_up].
Qed.

(** In range, [totPage s] is the number of pages that hold [s] bytes and a
    header. *)
Lemma totPage_is_stated_pages s : in_range s -> totPage s = stated_pages s.
Proof.
  intros Hr. destruct (totPage_rounds_up s Hr) as (Hup & _).
  destruct Hr as (Hs & Hb & Hp & Hq). unfold stated_pages.
  apply Z.div_unique
    with (r := s + BLOCK_SIZE + PAGE_SIZE - 1 - PAGE_SIZE * totPage s); lia.
Qed.


(** In range, a remainder that is usable in the words of the
    specification is one for which [allocMap] splits. *)
Lemma stated_split_is_split s :
  in_range s -> stated_no_split s = false -> no_split s = false.
Proof.
  intros Hr Hs. destruct (no_split s) eqn:E; [|reflexivity].
  apply (no_split_in_range s Hr) in E.
  unfold stated_no_split in Hs. apply orb_false_elim in Hs as [H1 H2].
  apply Z.eqb_neq in H1. apply Z.ltb_ge in H2.
  unfold BLOCK_SIZE in *. lia.
Qed.

(** *** Sequences of calls *)

(** C6: let [mymalloc 100] return the non-null pointer [A] whose header is
    a header of the list then, and let no other block of the list be free
    with at least 50 bytes.  Then [myfree A] followed by [mymalloc 50]
    returns [A] again: the block of [A] is taken, the kernel is not asked
    for memory, the list has the same headers, and memory is as it was
    before the release. *)
Theorem release_then_smaller_allocate_reuses fuel fuel' st0 l0 A st1 l1 :
  lseg (mem st0) (head st0) l0 -> listChange st0 = false ->
  kernel_fresh 100 l0 (os st0) -> (length l0 <= fuel)%nat ->
  mymalloc fuel 100 st0 = Ret A st1 ->
  A <> NULL ->
  lseg (mem st1) (head st1) l1 -> In (A - BLOCK_SIZE) l1 ->
  (forall a, In a l1 -> a <> A - BLOCK_SIZE -> fits (mem st1) 50 a = false) ->
  (length l1 <= fuel')%nat ->
  exists st2 st3,
    myfree A st1 = Ret tt st2
    /\ mymalloc fuel' 50 st2 = Ret A st3
    /\ os st3 = os st1
    /\ lseg (mem st3) (head st3) l1
    /\ mem st3 = mem st1 /\ head st3 = head st1.
Proof.
  intros H0 Hl0 Hk Hf E0 HA H1 Hin Honly Hf'.
  destruct (mymalloc_post _ _ _ _ _ _ H0 Hl0 Hk Hf E0)
    as (l' & _ & _ & Hl1 & _ & Hown).
  assert (Hh1 : head st1 <> NULL).
  { destruct l1 as [|x l1]; [contradiction|]. now apply lseg_head_not_null in H1. }
  destruct (Hown HA Hh1) as (_ & blk & Hblk & Hsz & Hfree).
  destruct (lseg_lookup _ _ _ _ H1 Hin) as (Hz & _).
  set (a := A - BLOCK_SIZE) in *.
  set (st2 := State (poke (set_free 1) a (mem st1)) (head st1)
                    (memChange st1) (listChange st1) (os st1) (Debug :: out st1)).
  assert (H2 : lseg (mem st2) (head st2) l1) by now apply lseg_poke_keep.
  assert (Hfit : first_fit (mem st2) 50 l1 = Some a).
  { pose proof (lseg_NoDup _ _ _ H1) as Hnd.
    apply in_split in Hin as (la & lb & ->).
    apply find_first.
    - intros x Hx.
      assert (Hxa : x <> a).
      { intros ->. apply List.NoDup_remove_2 in Hnd. apply Hnd.
        apply in_or_app. now left. }
      unfold fits. simpl. rewrite poke_ne by congruence.
      apply Honly; [apply in_or_app; now left|assumption].
    - unfold fits. simpl. rewrite poke_eq, Hblk. simpl.
      apply Z.leb_le. lia. }
  exists st2. eexists. split; [now apply myfree_eq|].
  assert (Hne : l1 <> []) by (intros ->; contradiction).
  rewrite mymalloc_eq by assumption.
  apply Z.eqb_neq in Hh1. unfold NULL in Hh1.
  change (head st2) with (head st1). rewrite Hh1.
  rewrite (nextBlock_spec fuel' 50 st2 l1) by assumption.
  rewrite Hfit. apply Z.eqb_neq in Hz. rewrite Hz.
  replace (a + BLOCK_SIZE) with A by (unfold a; lia).
  split; [reflexivity|]. simpl.
  assert (Em : poke (set_free 0) a (poke (set_free 1) a (mem st1)) = mem st1).
  { rewrite poke_poke, Hblk. simpl. apply insert_id.
    rewrite Hblk. f_equal. destruct blk; simpl in *. now subst. }
  rewrite Em. now split_and!.
Qed.

(** C2 (what the code does): [mycalloc] passes the result of [mymalloc]
    to [memset] without a test.  When [mymalloc] returns [NULL], [memset]
    runs on [NULL]: with a positive byte count the write through the null
    pointer ends the call; with a count of 0 the call of [memset] on
    [NULL] is made all the same and [NULL] is returned. *)
Theorem zero_fill_runs_on_null fuel nmemb s st st1 :
  mymalloc fuel (wrap (nmemb * s)) st = Ret NULL st1 ->
  (0 < wrap (nmemb * s) -> mycalloc fuel nmemb s st = Crash NullMemset)
  /\ (wrap (nmemb * s) = 0 ->
      mycalloc fuel nmemb s st
      = Ret NULL (with_out (Debug :: Memset NULL 0 :: out st1) st1)).
Proof.
  intros E. rewrite mycalloc_eq, E. split.
  - intros Hpos. apply Z.ltb_lt in Hpos. now rewrite Hpos.
  - intros ->. reflexivity.
Qed.

(** *** Failure *)

(** Once the list exists, a failure of [nextBlock] is reported and passed
    on: [mymalloc] calls [perror] and returns [NULL]. *)
Lemma later_failure_returns_null fuel s st st1 :
  head st <> NULL -> listChange st = false ->
  nextBlock fuel s st = Ret NULL st1 ->
  mymalloc fuel s st = Ret NULL (with_out (Perror :: out st1) st1).
Proof.
  intros Hh Hl E. rewrite mymalloc_eq by assumption.
  apply Z.eqb_neq in Hh. unfold NULL in Hh. rewrite Hh, E. reflexivity.
Qed.

(** *** Bootstrap *)

(** C1 (what the code does): when [sbrk] fails during the first
    allocation, [init_mem] returns [NULL] and [mymalloc] adds one header
    size to it: the caller receives the address [BLOCK_SIZE], which is not
    null.  Nothing is linked: memory and [head] are as before and [head]
    is still null; nothing is reported, and [memChange] stays locked. *)
Theorem bootstrap_failure_not_null fuel s st :
  head st = NULL -> memChange st = false -> listChange st = false ->
  fst (sbrk (to_intptr (wrap (s + BLOCK_SIZE))) (snd (sbrk 0 (os st))))
    = MAP_FAILED ->
  exists st',
    mymalloc fuel s st = Ret BLOCK_SIZE st'
    /\ BLOCK_SIZE <> NULL
    /\ mem st' = mem st /\ head st' = NULL
    /\ out st' = out st
    /\ memChange st' = true.
Proof.
  intros Hh Hm Hl Hf.
  rewrite mymalloc_eq by assumption. rewrite Hh. simpl.
  rewrite init_mem_eq by assumption.
  destruct (sbrk 0 (os st)) as [pt o1]. simpl in Hf.
  destruct (sbrk _ o1) as [r o2]. simpl in Hf. subst r. simpl.
  eexists. split; [reflexivity|]. simpl. repeat split; try assumption.
  discriminate.
Qed.

(** ** Further properties *)

(** *** Growing, and failing to grow *)


(** X7: when [mmap] fails, [mymalloc] reports it with [perror] and returns
    [NULL]; memory, [head] and the list are as before and both mutexes are
    free again. *)
Theorem mapping_failure_is_clean fuel s st l o1 :
  lseg (mem st) (head st) l -> l <> [] ->
  memChange st = false -> listChange st = false ->
  (length l <= fuel)%nat ->
  (forall x, In x l -> fits (mem st) s x = false) ->
  upage <= wrap (s + BLOCK_SIZE) ->
  mmap (wrap (s + BLOCK_SIZE)) (os st) = (MAP_FAILED, o1) ->
  mymalloc fuel s st
  = Ret NULL (State (mem st) (head st) false false o1 (Perror :: out st)).
Proof.
  intros H Hne Hm Hl Hf Hno Hbig E1.
  assert (Hh : head st <> NULL).
  { destruct l as [|x l]; [congruence|]. now apply lseg_head_not_null in H. }
  pose proof (last_In l NULL Hne) as Hin.
  destruct (lseg_lookup _ _ _ _ H Hin) as (Hz & _).
  apply Z.eqb_neq in Hh. unfold NULL in Hh. apply Z.leb_le in Hbig.
  rewrite mymalloc_eq by assumption. rewrite Hh.
  rewrite (nextBlock_spec fuel s st l) by assumption.
  unfold first_fit. rewrite (find_all_false _ _ Hno), Hbig.
  rewrite allocMap_eq by assumption. rewrite E1. reflexivity.
Qed.

(** X8: when [sbrk] fails behind an existing list, [mymalloc] reports it
    and returns [NULL] with memory and list as before, but [memChange]
    stays locked: from then on a request that no block of the list fits
    never returns, while a request that a free block fits is still
    served. *)
Theorem break_failure_blocks_later_growth fuel s st l pt o1 o2 :
  lseg (mem st) (head st) l -> l <> [] ->
  memChange st = false -> listChange st = false ->
  (length l <= fuel)%nat ->
  (forall x, In x l -> fits (mem st) s x = false) ->
  wrap (s + BLOCK_SIZE) < upage ->
  sbrk 0 (os st) = (pt, o1) ->
  sbrk (to_intptr (wrap (s + BLOCK_SIZE))) o1 = (MAP_FAILED, o2) ->
  let st' := State (mem st) (head st) true false o2 (Perror :: out st) in
  mymalloc fuel s st = Ret NULL st'
  /\ (forall s2, (forall x, In x l -> fits (mem st) s2 x = false) ->
                 mymalloc fuel s2 st' = Deadlock)
  /\ (forall s2 a, first_fit (mem st) s2 l = Some a ->
                   mymalloc fuel s2 st'
                   = Ret (a + BLOCK_SIZE) (with_out (Debug :: out st') (claim a st'))).
Proof.
  intros H Hne Hm Hl Hf Hno Hsmall E1 E2 st'.
  assert (Hh : head st <> NULL).
  { destruct l as [|x l]; [congruence|]. now apply lseg_head_not_null in H. }
  pose proof (last_In l NULL Hne) as Hin.
  destruct (lseg_lookup _ _ _ _ H Hin) as (Hz & _).
  apply Z.eqb_neq in Hh. unfold NULL in Hh.
  apply Z.leb_gt in Hsmall.
  assert (H' : lseg (mem st') (head st') l) by exact H.
  split; [|split].
  - rewrite mymalloc_eq by assumption. rewrite Hh.
    rewrite (nextBlock_spec fuel s st l) by assumption.
    unfold first_fit. rewrite (find_all_false _ _ Hno), Hsmall.
    rewrite expandHeap_eq by assumption. rewrite E1, E2. reflexivity.
  - intros s2 Hno2.
    rewrite mymalloc_eq by reflexivity. change (head st') with (head st).
    rewrite Hh. rewrite (nextBlock_spec fuel s2 st' l) by (assumption || reflexivity).
    unfold first_fit. change (mem st') with (mem st).
    rewrite (find_all_false _ _ Hno2).
    destruct (growth_deadlock s2 (List.last l NULL) st' eq_refl) as (_ & -> & ->).
    now destruct (upage <=? wrap (s2 + BLOCK_SIZE)).
  - intros s2 a Hfit.
    rewrite mymalloc_eq by reflexivity. change (head st') with (head st).
    rewrite Hh. rewrite (nextBlock_spec fuel s2 st' l) by (assumption || reflexivity).
    change (mem st') with (mem st). rewrite Hfit.
    apply find_some in Hfit as [Ha _].
    destruct (lseg_lookup _ _ _ _ H Ha) as (Ha0 & _).
    apply Z.eqb_neq in Ha0. now rewrite Ha0.
Qed.

(** X9: after a first allocation that failed, [memChange] is locked and
    [head] is still null: every later call of [mymalloc] or [mycalloc]
    runs into the locked mutex and never returns. *)
Theorem bootstrap_failure_blocks_all_later_calls fuel s st :
  head st = NULL -> memChange st = false -> listChange st = false ->
  fst (sbrk (to_intptr (wrap (s + BLOCK_SIZE))) (snd (sbrk 0 (os st))))
    = MAP_FAILED ->
  exists st',
    mymalloc fuel s st = Ret BLOCK_SIZE st'
    /\ (forall fuel' s', mymalloc fuel' s' st' = Deadlock)
    /\ (forall fuel' n s', mycalloc fuel' n s' st' = Deadlock).
Proof.
  intros Hh Hm Hl Hf.
  rewrite mymalloc_eq by assumption. rewrite Hh. simpl.
  rewrite init_mem_eq by assumption.
  destruct (sbrk 0 (os st)) as [pt o1]. simpl in Hf.
  destruct (sbrk _ o1) as [r o2]. simpl in Hf. subst r. simpl.
  eexists. split; [reflexivity|].
  assert (Hd : forall fuel' s',
    mymalloc fuel' s' (State (mem st) (head st) true false o2 (out st)) = Deadlock).
  { intros fuel' s'. rewrite mymalloc_eq by reflexivity.
    change (head (State (mem st) (head st) true false o2 (out st))) with (head st).
    rewrite Hh.
    destruct (growth_deadlock s' 0
                (State (mem st) NULL true false o2 (out st)) eq_refl) as (E & _).
    change (NULL =? 0) with true. cbv iota. now rewrite E. }
  split; [exact Hd|].
  intros fuel' n s'. rewrite mycalloc_eq. now rewrite Hd.
Qed.

(** *** Release *)

(** X10: release and allocation round trip.  When the block of a pointer
    holds at least [s] bytes and no header before it in the list fits [s],
    [myfree] of the pointer followed by [mymalloc s] returns the same
    pointer: the kernel is not called, the list is the same, and the block
    keeps its [size], larger than [s] or not. *)
Theorem release_then_allocate_round_trip fuel s st l1 a l2 b :
  lseg (mem st) (head st) (l1 ++ a :: l2) -> listChange st = false ->
  (length (l1 ++ a :: l2) <= fuel)%nat ->
  mem st !! a = Some b -> s <= size b ->
  (forall x, In x l1 -> fits (mem st) s x = false) ->
  exists st1 st2,
    myfree (a + BLOCK_SIZE) st = Ret tt st1
    /\ mymalloc fuel s st1 = Ret (a + BLOCK_SIZE) st2
    /\ mem st2 = <[a := Block (size b) (next b) 0]> (mem st)
    /\ lseg (mem st2) (head st2) (l1 ++ a :: l2)
    /\ head st2 = head st /\ os st2 = os st.
Proof.
  intros H Hl Hf Hb Hs Hno.
  set (l := l1 ++ a :: l2) in *.
  assert (Hin : In a l) by (apply in_or_app; right; now left).
  destruct (lseg_lookup _ _ _ _ H Hin) as (Hz & _).
  assert (Hh : head st <> NULL).
  { subst l. destruct l1; now apply lseg_head_not_null in H. }
  set (st1 := State (poke (set_free 1) a (mem st)) (head st)
                    (memChange st) (listChange st) (os st) (Debug :: out st)).
  assert (H1 : lseg (mem st1) (head st1) l) by now apply lseg_poke_keep.
  assert (Hfit : first_fit (mem st1) s l = Some a).
  { pose proof (lseg_NoDup _ _ _ H) as Hnd. subst l.
    apply find_first.
    - intros x Hx.
      assert (Hxa : x <> a).
      { intros ->. apply List.NoDup_remove_2 in Hnd. apply Hnd.
        apply in_or_app. now left. }
      unfold fits. simpl. rewrite poke_ne by congruence. now apply Hno.
    - unfold fits. simpl. rewrite poke_eq, Hb. simpl. apply Z.leb_le. lia. }
  exists st1. eexists. split.
  { rewrite myfree_eq by (replace (a + BLOCK_SIZE - BLOCK_SIZE) with a by lia;
                          assumption).
    unfold st1. now replace (a + BLOCK_SIZE - BLOCK_SIZE) with a by lia. }
  assert (Hne : l <> []) by (intros E; rewrite E in Hin; contradiction).
  rewrite mymalloc_eq by assumption.
  apply Z.eqb_neq in Hh. unfold NULL in Hh.
  change (head st1) with (head st). rewrite Hh.
  rewrite (nextBlock_spec fuel s st1 l) by assumption.
  rewrite Hfit. apply Z.eqb_neq in Hz. rewrite Hz.
  split; [reflexivity|]. simpl.
  assert (Em : poke (set_free 0) a (poke (set_free 1) a (mem st))
               = <[a := Block (size b) (next b) 0]> (mem st)).
  { rewrite poke_poke, Hb. reflexivity. }
  rewrite Em. split; [reflexivity|]. split; [|now split].
  rewrite <- Em. apply lseg_poke_keep; [reflexivity|].
  now apply lseg_poke_keep.
Qed.

(** X11: releasing a pointer twice leaves memory, [head] and the list as
    they are after the first release: a second release is not detected
    and changes nothing. *)
Theorem double_release_changes_nothing p st l :
  lseg (mem st) (head st) l -> In (p - BLOCK_SIZE) l ->
  exists st1 st2,
    myfree p st = Ret tt st1 /\ myfree p st1 = Ret tt st2
    /\ mem st2 = mem st1 /\ head st2 = head st1 /\ os st2 = os st1
    /\ lseg (mem st2) (head st2) l.
Proof.
  intros H Hin.
  destruct (lseg_lookup _ _ _ _ H Hin) as (Hz & b & Hb).
  eexists. eexists. split; [now apply myfree_eq|].
  split; [now apply myfree_eq|]. simpl.
  assert (Em : poke (set_free 1) (p - BLOCK_SIZE)
                 (poke (set_free 1) (p - BLOCK_SIZE) (mem st))
               = poke (set_free 1) (p - BLOCK_SIZE) (mem st)).
  { rewrite poke_poke. unfold poke. rewrite Hb. reflexivity. }
  rewrite Em. split_and!; try reflexivity. now apply lseg_poke_keep.
Qed.

(** *** The blocks of a mapping *)

(** X12: for a request in range, the blocks that [allocMap] writes stay
    inside the [totPage] pages it counts.  One block: the pages end at
    most one header size behind the end of the block.  Two blocks: the
    second header starts where the [s] bytes of the first end, and its
    bytes end exactly where the pages end; it holds at least one byte and
    less than a page. *)
Theorem mapping_blocks_fill_pages s st l pt o1 :
  in_range s ->
  memChange st = false -> listChange st = false ->
  lseg (mem st) (head st) l -> l <> [] ->
  mmap (wrap (s + BLOCK_SIZE)) (os st) = (pt, o1) ->
  pt <> MAP_FAILED -> fresh l pt -> fresh (pt :: l) (pt + s + BLOCK_SIZE) ->
  exists st' b1,
    allocMap s (List.last l NULL) st = Ret pt st'
    /\ mem st' !! pt = Some b1 /\ size b1 = s
    /\ (if no_split s
        then next b1 = NULL
             /\ pt + BLOCK_SIZE + size b1 <= pt + totPage s * PAGE_SIZE
                <= pt + BLOCK_SIZE + size b1 + BLOCK_SIZE
        else exists b2,
             mem st' !! next b1 = Some b2
             /\ next b1 = pt + BLOCK_SIZE + size b1
             /\ next b1 + BLOCK_SIZE + size b2 = pt + totPage s * PAGE_SIZE
             /\ 0 < size b2 < PAGE_SIZE - BLOCK_SIZE).
Proof.
  intros Hr Hm Hl H Hne Emap Hf Hfr Hfr2.
  pose proof (last_In l NULL Hne) as Hin.
  destruct (lseg_lookup _ _ _ _ H Hin) as (Hz & _).
  pose proof Hfr as [Hp _]. pose proof Hfr2 as [Hq Hq'].
  apply Z.eqb_neq in Hf, Hp, Hq.
  destruct (totPage_rounds_up s Hr) as (Hup & _).
  rewrite allocMap_eq by assumption. rewrite Emap, Hf, Hp.
  destruct (no_split s) eqn:En.
  - eexists. eexists. split; [reflexivity|]. simpl.
    split; [apply lookup_insert_eq|]. split; [reflexivity|]. simpl.
    split; [reflexivity|].
    apply (no_split_in_range s Hr) in En. unfold BLOCK_SIZE in *. lia.
  - rewrite Hq. eexists. eexists. split; [reflexivity|]. simpl.
    split.
    { rewrite lookup_insert_ne; [apply lookup_insert_eq|].
      intros Ex. apply Hq'. left. now rewrite Ex. }
    split; [reflexivity|]. simpl.
    eexists. split; [apply lookup_insert_eq|]. simpl.
    destruct (split_size_in_range s Hr En) as (-> & Hpos).
    unfold BLOCK_SIZE in *. lia.
Qed.


End Specs.

(** ** The paths of an allocation *)

Section Effects.

Context {OS : Type} `{K : Kernel OS}.

Implicit Types (st : state OS) (l : list Z).

(** The paths of [mymalloc], for a call that returns. *)
Lemma mymalloc_cases fuel s st l v st' :
  lseg (mem st) (head st) l -> listChange st = false ->
  grants_fresh s l (os st) -> (length l <= fuel)%nat ->
  mymalloc fuel s st = Ret v st' ->
  malloc_effect s l st v st'.
Proof.
  intros H Hl [Hbrk Hmap] Hf. rewrite mymalloc_eq by assumption.
  destruct (head st =? 0) eqn:Eh.
  - apply Z.eqb_eq in Eh. rewrite Eh in H. apply lseg_null in H. subst l.
    destruct (memChange st) eqn:Hm.
    { destruct (growth_deadlock s 0 st Hm) as (-> & _). discriminate. }
    rewrite init_mem_eq by assumption.
    destruct (sbrk 0 (os st)) as [pt o1] eqn:E1.
    destruct (sbrk _ o1) as [r o2] eqn:E2.
    destruct (r =? MAP_FAILED) eqn:Er.
    + apply Z.eqb_eq in Er. subst r.
      intros [= <- <-]. now apply (eff_boot_fail s [] st pt o1 o2).
    + apply Z.eqb_neq in Er.
      destruct (pt =? NULL) eqn:Ep; [discriminate|]. apply Z.eqb_neq in Ep.
      intros [= <- <-]. now apply (eff_boot s [] st pt o1 r o2).
  - assert (Hne : l <> []).
    { intros ->. simpl in H. apply Z.eqb_neq in Eh. contradiction. }
    pose proof (last_In l NULL Hne) as Hin.
    destruct (lseg_lookup _ _ _ _ H Hin) as (Hz & _).
    rewrite (nextBlock_spec fuel s st l) by assumption.
    destruct (first_fit (mem st) s l) as [a|] eqn:E.
    { apply find_some in E as E'. destruct E' as [Ha _].
      destruct (lseg_lookup _ _ _ _ H Ha) as (Ha0 & _).
      apply Z.eqb_neq in Ha0. rewrite Ha0.
      intros [= <- <-]. change (out (claim a st)) with (out st).
      now apply eff_reuse. }
    destruct (memChange st) eqn:Hm.
    { destruct (growth_deadlock s (List.last l NULL) st Hm) as (_ & -> & ->).
      now destruct (upage <=? wrap (s + BLOCK_SIZE)). }
    destruct (upage <=? wrap (s + BLOCK_SIZE)).
    + rewrite allocMap_eq by assumption.
      destruct (mmap (wrap (s + BLOCK_SIZE)) (os st)) as [pt o1] eqn:E1.
      destruct (pt =? MAP_FAILED) eqn:Ef.
      { apply Z.eqb_eq in Ef. subst pt.
        intros [= <- <-]. unfold with_out. simpl. now apply eff_fail_map. }
      apply Z.eqb_neq in Ef. destruct (Hmap pt o1 eq_refl Ef) as [Hp Hq].
      pose proof Hp as [Hp0 _]. apply Z.eqb_neq in Hp0. rewrite Hp0.
      destruct (no_split s) eqn:En.
      * rewrite Hp0. intros [= <- <-]. unfold with_out. simpl.
        now apply eff_one_map.
      * destruct (Hq eq_refl) as [Hq0 Hq1].
        apply Z.eqb_neq in Hq0. rewrite Hq0, Hp0.
        intros [= <- <-]. unfold with_out. simpl.
        apply eff_two; try assumption. split; [now apply Z.eqb_neq|assumption].
    + rewrite expandHeap_eq by assumption.
      destruct (sbrk 0 (os st)) as [pt o1] eqn:E1.
      destruct (sbrk _ o1) as [r o2] eqn:E2.
      destruct (r =? MAP_FAILED) eqn:Er.
      { apply Z.eqb_eq in Er. subst r.
        intros [= <- <-]. unfold with_out. simpl.
        now apply (eff_fail_brk s l st pt o1 o2). }
      apply Z.eqb_neq in Er.
      pose proof (Hbrk pt o1 r o2 eq_refl E2 Er) as Hp.
      pose proof Hp as [Hp0 _]. apply Z.eqb_neq in Hp0. rewrite Hp0, Hp0.
      intros [= <- <-]. unfold with_out. simpl.
      now apply (eff_one_brk s l st pt o1 r o2).
Qed.


(** The list after an allocation: the list before it with at most two
    headers behind it. *)
Lemma effect_appended s l st v st' :
  lseg (mem st) (head st) l -> listChange st = false ->
  malloc_effect s l st v st' ->
  listChange st' = false
  /\ exists l',
      appended st st' l l'
      /\ (v <> NULL -> head st' <> NULL ->
          In (v - BLOCK_SIZE) (l ++ l')
          /\ exists blk, mem st' !! (v - BLOCK_SIZE) = Some blk
                         /\ s <= size blk /\ free blk = 0).
Proof.
  intros H Hl Heff.
  destruct Heff
    as [pt o1 o2 -> _ _|pt o1 r o2 -> Hp _ _ _|a Hfit|pt o1 o2 Hne _ _ _
       |o2 Hne _ _|pt o1 r o2 Hne _ Hfr _ _ _|pt o2 Hne _ Hfr _ _ _
       |pt o2 Hne _ Hfr Hfr2 _ _ _];
    (split; [first [reflexivity|exact Hl]|]); simpl.
  - exists []. split.
    + split; [exact H|]. split; [simpl; lia|]. split; [intros x []|reflexivity].
    + simpl. intros _ Hh. simpl in H. contradiction.
  - exists [pt]. split.
    + split; [|split; [simpl; lia|split; [intros x _ []|]]].
      * simpl. split; [reflexivity|]. split; [assumption|].
        eexists. split; [apply lookup_insert_eq|reflexivity].
      * simpl in H. intros Hh. contradiction.
    + intros _ _. replace (pt + BLOCK_SIZE - BLOCK_SIZE) with pt by lia.
      split; [now left|]. eexists. split; [apply lookup_insert_eq|].
      simpl. split; [lia|reflexivity].
  - exists []. unfold appended. rewrite !app_nil_r. apply find_some in Hfit as [Ha Hfit].
    destruct (lseg_lookup _ _ _ _ H Ha) as (Hz & b & Hb).
    split.
    + split; [now apply lseg_poke_keep|].
      split; [simpl; lia|]. split; [intros x []|reflexivity].
    + intros _ _. replace (a + BLOCK_SIZE - BLOCK_SIZE) with a by lia.
      split; [assumption|]. rewrite poke_eq, Hb. simpl.
      eexists. split; [reflexivity|]. simpl.
      unfold fits in Hfit. rewrite Hb in Hfit.
      apply andb_true_iff in Hfit as [_ Hs]. apply Z.leb_le in Hs.
      split; [assumption|reflexivity].
  - exists []. unfold appended. rewrite !app_nil_r. split.
    + split; [exact H|]. split; [simpl; lia|]. split; [intros x []|reflexivity].
    + intros Hv. now elim Hv.
  - exists []. unfold appended. rewrite !app_nil_r. split.
    + split; [exact H|]. split; [simpl; lia|]. split; [intros x []|reflexivity].
    + intros Hv. now elim Hv.
  - exists [pt]. destruct Hfr as [Hp0 Hp]. split.
    + split; [now apply lseg_link1|]. split; [simpl; lia|].
      split; [|reflexivity]. intros x [<-|[]]. assumption.
    + intros _ _. replace (pt + BLOCK_SIZE - BLOCK_SIZE) with pt by lia.
      split; [apply in_or_app; right; now left|].
      eexists. split; [apply lookup_insert_eq|]. simpl. split; [lia|reflexivity].
  - exists [pt]. destruct Hfr as [Hp0 Hp]. split.
    + split; [now apply lseg_link1|]. split; [simpl; lia|].
      split; [|reflexivity]. intros x [<-|[]]. assumption.
    + intros _ _. replace (pt + BLOCK_SIZE - BLOCK_SIZE) with pt by lia.
      split; [apply in_or_app; right; now left|].
      eexists. split; [apply lookup_insert_eq|]. simpl. split; [lia|reflexivity].
  - exists [pt; pt + s + BLOCK_SIZE].
    destruct Hfr as [Hp0 Hp]. destruct Hfr2 as [Hq0 Hq]. split.
    + split; [now apply lseg_link2|]. split; [simpl; lia|].
      split; [|reflexivity]. intros x [<-|[<-|[]]]; [assumption|].
      intros Hx. apply Hq. now right.
    + intros _ _. replace (pt + BLOCK_SIZE - BLOCK_SIZE) with pt by lia.
      split; [apply in_or_app; right; now left|].
      rewrite lookup_insert_ne by (intros E; apply Hq; left; now rewrite E).
      eexists. split; [apply lookup_insert_eq|]. simpl. split; [lia|reflexivity].
Qed.

(** A block of the list that is in use is not what an allocation hands
    out. *)
Lemma effect_not_in_use s l st v st' a blk :
  malloc_effect s l st v st' -> v <> NULL ->
  In a l -> mem st !! a = Some blk -> free blk = 0 ->
  v - BLOCK_SIZE <> a.
Proof.
  intros Heff Hv Hin Hb Hfree.
  destruct Heff
    as [pt o1 o2 -> _ _|pt o1 r o2 -> Hp _ _ _|a0 Hfit|pt o1 o2 Hne _ _ _
       |o2 Hne _ _|pt o1 r o2 Hne _ [_ Hp] _ _ _|pt o2 Hne _ [_ Hp] _ _ _
       |pt o2 Hne _ [_ Hp] _ _ _ _];
    try contradiction.
  - apply find_some in Hfit as [_ Hfit]. intros Ea.
    replace (a0 + BLOCK_SIZE - BLOCK_SIZE) with a0 in Ea by lia. subst a0.
    unfold fits in Hfit. rewrite Hb, Hfree in Hfit. discriminate.
  - replace (pt + BLOCK_SIZE - BLOCK_SIZE) with pt by lia. now intros ->.
  - replace (pt + BLOCK_SIZE - BLOCK_SIZE) with pt by lia. now intros ->.
  - replace (pt + BLOCK_SIZE - BLOCK_SIZE) with pt by lia. now intros ->.
Qed.

(** What an allocation leaves of the headers of the list. *)
Lemma effect_frame s l st v st' :
  malloc_effect s l st v st' ->
  forall a b, In a l -> mem st !! a = Some b ->
    exists b', mem st' !! a = Some b' /\ size b' = size b
               /\ (a <> v - BLOCK_SIZE -> free b' = free b)
               /\ (a <> List.last l NULL -> next b' = next b).
Proof.
  intros Heff a b Hin Hb.
  assert (Hlink : forall pt X,
    ~ In pt l ->
    exists b', (<[pt := X]>
                  (poke (set_next pt) (List.last l NULL) (mem st))) !! a = Some b'
               /\ size b' = size b
               /\ (a <> pt + BLOCK_SIZE - BLOCK_SIZE -> free b' = free b)
               /\ (a <> List.last l NULL -> next b' = next b)).
  { intros pt X Hp. rewrite lookup_insert_ne by (intros ->; contradiction).
    destruct (decide (List.last l NULL = a)) as [Ea|Hne].
    + rewrite Ea, poke_eq, Hb. simpl. eexists. split; [reflexivity|].
      split; [reflexivity|]. split; [reflexivity|]. intros Hna. now elim Hna.
    + rewrite poke_ne by assumption. eauto. }
  destruct Heff
    as [pt o1 o2 -> _ _|pt o1 r o2 -> Hp _ _ _|a0 Hfit|pt o1 o2 Hne _ _ _
       |o2 Hne _ _|pt o1 r o2 Hne _ [_ Hp] _ _ _|pt o2 Hne _ [_ Hp] _ _ _
       |pt o2 Hne _ [_ Hp] [_ Hq] _ _ _];
    try contradiction; simpl.
  - destruct (decide (a0 = a)) as [->|Hne].
    + rewrite poke_eq, Hb. simpl. eexists. split; [reflexivity|].
      split; [reflexivity|]. split; [|reflexivity].
      intros Hna. elim Hna. lia.
    + rewrite poke_ne by assumption. eauto.
  - eauto.
  - eauto.
  - now apply Hlink.
  - now apply Hlink.
  - rewrite lookup_insert_ne by (intros Ex; apply Hq; right; now rewrite Ex).
    now apply Hlink.
Qed.

End Effects.

(** ** Allocation on a kernel that keeps its rules *)

Section Sound.

Context {OS : Type} `{L : LawfulKernel OS}.

Implicit Types (st : state OS) (l : list Z).

Lemma no_wrap_increment s :
  0 <= s -> s + BLOCK_SIZE < 2 ^ 63 ->
  wrap (s + BLOCK_SIZE) = s + BLOCK_SIZE
  /\ to_intptr (s + BLOCK_SIZE) = s + BLOCK_SIZE.
Proof.
  intros H0 H1. unfold wrap, to_intptr, BLOCK_SIZE in *.
  rewrite !Z.mod_small by lia. lia.
Qed.

Lemma intervals_apart (P : Z -> Prop) a1 e1 a2 e2 :
  a1 < e1 -> a2 < e2 ->
  (forall x, a1 <= x < e1 -> P x) -> (forall x, a2 <= x < e2 -> ~ P x) ->
  e1 <= a2 \/ e2 <= a1.
Proof.
  intros H1 H2 HP HQ.
  destruct (Z_le_gt_dec e1 a2); [now left|].
  destruct (Z_le_gt_dec e2 a1); [now right|].
  exfalso. apply (HQ (Z.max a1 a2)); [lia|apply HP; lia].
Qed.

(** What [sbrk] does for the allocator: the bytes of the block, from the
    old break on, become memory of the process. *)
Lemma brk_facts s o pt o1 r o2 :
  kernel_ok o -> 0 <= s -> s + BLOCK_SIZE < 2 ^ 63 ->
  sbrk 0 o = (pt, o1) ->
  sbrk (to_intptr (wrap (s + BLOCK_SIZE))) o1 = (r, o2) ->
  sbrk (s + BLOCK_SIZE) o = (r, o2)
  /\ kernel_ok o2
  /\ (forall x, owned o x -> owned o2 x)
  /\ (r <> MAP_FAILED ->
      pt <> NULL
      /\ forall x, pt <= x < pt + BLOCK_SIZE + s -> ~ owned o x /\ owned o2 x).
Proof.
  intros Hok Hs0 Hs E1 E2.
  destruct (no_wrap_increment s Hs0 Hs) as (Ew & Ei). rewrite Ew, Ei in E2.
  pose proof (sbrk_query _ Hok) as Eq. rewrite E1 in Eq. simpl in Eq. subst o1.
  assert (Hpos : 0 < s + BLOCK_SIZE) by (unfold BLOCK_SIZE; lia).
  destruct (sbrk_grows _ _ _ _ Hok Hpos E2) as (Hok2 & Hmono & Hg).
  split; [assumption|]. split; [assumption|]. split; [assumption|].
  intros Hf. destruct (Hg Hf) as (Er & Hreg).
  rewrite E1 in Er. simpl in Er. subst r.
  split.
  - destruct (Hreg pt) as [_ Ho]; [lia|].
    pose proof (owned_positive _ _ Hok2 Ho). unfold NULL. lia.
  - intros x Hx. apply Hreg. lia.
Qed.

(** What [mmap] does for the allocator: whole pages, as many as hold the
    request and its header. *)
Lemma map_facts s o pt o2 :
  kernel_ok o -> no_wrap s ->
  mmap (wrap (s + BLOCK_SIZE)) o = (pt, o2) ->
  kernel_ok o2
  /\ (forall x, owned o x -> owned o2 x)
  /\ (pt <> MAP_FAILED ->
      pt <> NULL
      /\ s + BLOCK_SIZE <= totPage s * PAGE_SIZE
      /\ forall x, pt <= x < pt + totPage s * PAGE_SIZE ->
                   ~ owned o x /\ owned o2 x).
Proof.
  intros Hok (Hr & Hs) E1.
  pose proof Hr as (Hs0 & _).
  destruct (no_wrap_increment s Hs0 Hs) as (Ew & _). rewrite Ew in E1.
  assert (Hpos : 0 < s + BLOCK_SIZE) by (unfold BLOCK_SIZE; lia).
  destruct (mmap_grows _ _ _ _ Hok Hpos E1) as (Hok2 & Hmono & Hg).
  split; [assumption|]. split; [assumption|].
  intros Hf. specialize (Hg Hf). fold (stated_pages s) in Hg.
  rewrite <- (totPage_is_stated_pages s Hr) in Hg.
  destruct (totPage_rounds_up s Hr) as (Hup & _).
  split; [|split; [lia|assumption]].
  destruct (Hg pt) as [_ Ho]; [lia|].
  pose proof (owned_positive _ _ Hok2 Ho). unfold NULL. lia.
Qed.

(** A header of a list that is laid out lies in memory of the process. *)
Lemma laid_out_owned st l a :
  laid_out st l -> In a l -> owned (os st) a.
Proof.
  intros (H & _ & _ & Hback & _) Hin.
  destruct (lseg_lookup _ _ _ _ H Hin) as (_ & b & Hb).
  destruct (Hback a b Hin Hb) as (Hsz & Hown).
  apply Hown. unfold BLOCK_SIZE. lia.
Qed.

(** The kernel hands out memory that is new to a list that is laid out. *)
Lemma lawful_grants st l s :
  laid_out st l -> no_wrap s -> grants_fresh s l (os st).
Proof.
  intros Hlay Hs. pose proof Hlay as (H & Hl & Hok & Hback & _).
  pose proof Hs as (Hr & Hs63). pose proof Hr as (Hs0 & _).
  split.
  - intros pt o1 r o2 E1 E2 Hf.
    destruct (brk_facts s _ _ _ _ _ Hok Hs0 Hs63 E1 E2) as (_ & _ & _ & Hg).
    destruct (Hg Hf) as (Hp & Hreg). split; [assumption|].
    intros Hin. destruct (Hreg pt) as [Hn _]; [unfold BLOCK_SIZE; lia|].
    apply Hn. now apply (laid_out_owned st l).
  - intros pt o2 E1 Hf.
    destruct (map_facts s _ _ _ Hok Hs E1) as (Hok2 & _ & Hg).
    destruct (Hg Hf) as (Hp & Hle & Hreg).
    assert (Hpt : ~ In pt l).
    { intros Hin. destruct (Hreg pt) as [Hn _]; [unfold BLOCK_SIZE in *; lia|].
      apply Hn. now apply (laid_out_owned st l). }
    split; [now split|]. intros Hns.
    destruct (split_size_in_range s Hr Hns) as (_ & Hpos).
    destruct (Hreg (pt + s + BLOCK_SIZE)) as [Hn Ho];
      [unfold BLOCK_SIZE in *; lia|].
    split.
    + pose proof (owned_positive _ _ Hok2 Ho). unfold NULL. lia.
    + intros [E|Hin]; [unfold BLOCK_SIZE in E; lia|].
      apply Hn. now apply (laid_out_owned st l).
Qed.

(** New blocks in new memory keep a layout. *)
Lemma layout_grow (m m' : memory) (o o' : OS) p l l' (N : Z -> Prop) :
  lseg m p l -> backed m o l -> apart m l ->
  (forall x, owned o x -> owned o' x) ->
  (forall x, N x -> ~ owned o x /\ owned o' x) ->
  (forall a b, In a l -> m !! a = Some b ->
     exists b', m' !! a = Some b' /\ size b' = size b) ->
  (forall a b', In a l' -> m' !! a = Some b' ->
     0 <= size b' /\ forall x, a <= x < a + BLOCK_SIZE + size b' -> N x) ->
  apart m' l' ->
  backed m' o' (l ++ l') /\ apart m' (l ++ l').
Proof.
  intros H Hb Ha Hmono HN Hkeep Hnew Hna.
  assert (Hold : forall a b', In a l -> m' !! a = Some b' ->
            0 <= size b'
            /\ (forall x, a <= x < a + BLOCK_SIZE + size b' -> owned o x)
            /\ exists b, m !! a = Some b /\ size b = size b').
  { intros a b' Hin Hb'.
    destruct (lseg_lookup _ _ _ _ H Hin) as (_ & b & Hbb).
    destruct (Hkeep a b Hin Hbb) as (b2 & Hb2 & Hs).
    rewrite Hb' in Hb2. injection Hb2 as <-.
    destruct (Hb a b Hin Hbb) as (Hsz & Hown). rewrite Hs.
    split; [assumption|]. split; [assumption|]. exists b. now split. }
  split.
  - intros a b' Hin Hb'. apply in_app_or in Hin as [Hin|Hin].
    + destruct (Hold a b' Hin Hb') as (Hsz & Hown & _).
      split; [assumption|]. intros x Hx. apply Hmono, Hown, Hx.
    + destruct (Hnew a b' Hin Hb') as (Hsz & HNx).
      split; [assumption|]. intros x Hx. apply HN, HNx, Hx.
  - intros a1 a2 b1 b2 H1 H2 Hne E1 E2.
    apply in_app_or in H1 as [H1|H1]; apply in_app_or in H2 as [H2|H2].
    + destruct (Hold a1 b1 H1 E1) as (_ & _ & c1 & Hc1 & Hs1).
      destruct (Hold a2 b2 H2 E2) as (_ & _ & c2 & Hc2 & Hs2).
      rewrite <- Hs1, <- Hs2. now apply (Ha a1 a2 c1 c2).
    + destruct (Hold a1 b1 H1 E1) as (Hz1 & Hown & _).
      destruct (Hnew a2 b2 H2 E2) as (Hz2 & HNx).
      apply (intervals_apart (owned o)); try (unfold BLOCK_SIZE; lia);
        [assumption|].
      intros x Hx. apply HN, HNx, Hx.
    + destruct (Hnew a1 b1 H1 E1) as (Hz1 & HNx).
      destruct (Hold a2 b2 H2 E2) as (Hz2 & Hown & _).
      destruct (intervals_apart (owned o)
                  a2 (a2 + BLOCK_SIZE + size b2) a1 (a1 + BLOCK_SIZE + size b1))
        as [Hd|Hd]; try (unfold BLOCK_SIZE; lia); try assumption;
        [|now right|now left].
      intros x Hx. apply HN, HNx, Hx.
    + now apply (Hna a1 a2 b1 b2).
Qed.

(** An allocation keeps the layout. *)
Lemma effect_laid_out s l st v st' :
  laid_out st l -> no_wrap s -> malloc_effect s l st v st' ->
  exists l',
    laid_out st' (l ++ l') /\ appended st st' l l'
    /\ (v <> NULL -> head st' <> NULL ->
        In (v - BLOCK_SIZE) (l ++ l')
        /\ exists blk, mem st' !! (v - BLOCK_SIZE) = Some blk
                       /\ s <= size blk /\ free blk = 0).
Proof.
  intros Hlay Hs Heff.
  pose proof Hlay as (H & Hl & Hok & Hback & Hapart).
  pose proof Hs as (Hr & Hs63). pose proof Hr as (Hs0 & _).
  destruct (effect_appended s l st v st' H Hl Heff) as (Hl' & l' & Happ & Hown).
  exists l'. split; [|split; assumption].
  pose proof Happ as (H' & _).
  split; [assumption|]. split; [assumption|].
  assert (Hkeep : forall a b, In a l -> mem st !! a = Some b ->
            exists b', mem st' !! a = Some b' /\ size b' = size b).
  { intros a b Hin Hb.
    destruct (effect_frame s l st v st' Heff a b Hin Hb) as (b' & ? & ? & _).
    eauto. }
  assert (Hgrow : forall lc o' (N : Z -> Prop),
    lseg (mem st') (head st') (l ++ lc) ->
    (forall x, owned (os st) x -> owned o' x) ->
    (forall x, N x -> ~ owned (os st) x /\ owned o' x) ->
    (forall a b', In a lc -> mem st' !! a = Some b' ->
       0 <= size b'
       /\ forall x, a <= x < a + BLOCK_SIZE + size b' -> N x) ->
    apart (mem st') lc ->
    backed (mem st') o' (l ++ l') /\ apart (mem st') (l ++ l')).
  { intros lc o' N Hlc Hmono HN Hnew Hna.
    rewrite (lseg_functional _ _ _ _ H' Hlc).
    now apply (layout_grow (mem st) (mem st') (os st) o' (head st) l lc N). }
  assert (Hnone : apart (mem st') []) by (intros a1 a2 b1 b2 []).
  assert (Hone : forall a, apart (mem st') [a]).
  { intros a a1 a2 b1 b2 [<-|[]] [<-|[]] Hne. now elim Hne. }
  clear Hown Happ.
  destruct Heff
    as [pt o1 o2 -> E1 E2|pt o1 r o2 -> Hp E1 E2 Hf|a Hfit|pt o1 o2 Hne _ E1 E2
       |o2 Hne _ E1|pt o1 r o2 Hne _ Hfr E1 E2 Hf|pt o2 Hne _ Hfr E1 Hf Hns
       |pt o2 Hne _ Hfr Hfr2 E1 Hf Hns];
    simpl in *.
  - destruct (brk_facts s _ _ _ _ _ Hok Hs0 Hs63 E1 E2) as (_ & Hok2 & Hmono & _).
    split; [assumption|].
    apply (Hgrow [] o2 (fun _ => False)); try assumption; try tauto.
    intros a b' [].
  - destruct (brk_facts s _ _ _ _ _ Hok Hs0 Hs63 E1 E2) as (_ & Hok2 & Hmono & Hg).
    destruct (Hg Hf) as (_ & Hreg).
    split; [assumption|].
    apply (Hgrow [pt] o2 (fun x => pt <= x < pt + BLOCK_SIZE + s));
      try assumption.
    + simpl. split; [reflexivity|]. split; [assumption|].
      eexists. split; [apply lookup_insert_eq|reflexivity].
    + intros a b' [<-|[]]. rewrite lookup_insert_eq. intros [= <-]. simpl.
      split; [assumption|]. tauto.
    + apply Hone.
  - split; [assumption|].
    apply (Hgrow [] (os st) (fun _ => False)); try assumption; try tauto.
    + rewrite app_nil_r. apply find_some in Hfit as [Ha _].
      now apply lseg_poke_keep.
    + intros a0 b' [].
  - destruct (brk_facts s _ _ _ _ _ Hok Hs0 Hs63 E1 E2) as (_ & Hok2 & Hmono & _).
    split; [assumption|].
    apply (Hgrow [] o2 (fun _ => False)); try assumption; try tauto.
    + now rewrite app_nil_r.
    + intros a b' [].
  - destruct (map_facts s _ _ _ Hok Hs E1) as (Hok2 & Hmono & _).
    split; [assumption|].
    apply (Hgrow [] o2 (fun _ => False)); try assumption; try tauto.
    + now rewrite app_nil_r.
    + intros a b' [].
  - destruct (brk_facts s _ _ _ _ _ Hok Hs0 Hs63 E1 E2) as (_ & Hok2 & Hmono & Hg).
    destruct (Hg Hf) as (_ & Hreg).
    split; [assumption|].
    apply (Hgrow [pt] o2 (fun x => pt <= x < pt + BLOCK_SIZE + s));
      try assumption.
    + now apply lseg_link1.
    + intros a b' [<-|[]]. rewrite lookup_insert_eq. intros [= <-]. simpl.
      split; [assumption|]. tauto.
    + apply Hone.
  - destruct (map_facts s _ _ _ Hok Hs E1) as (Hok2 & Hmono & Hg).
    destruct (Hg Hf) as (_ & Hle & Hreg).
    split; [assumption|].
    apply (Hgrow [pt] o2 (fun x => pt <= x < pt + totPage s * PAGE_SIZE));
      try assumption.
    + now apply lseg_link1.
    + intros a b' [<-|[]]. rewrite lookup_insert_eq. intros [= <-]. simpl.
      split; [assumption|]. intros x Hx. lia.
    + apply Hone.
  - destruct (map_facts s _ _ _ Hok Hs E1) as (Hok2 & Hmono & Hg).
    destruct (Hg Hf) as (_ & Hle & Hreg).
    destruct (split_size_in_range s Hr Hns) as (Esz & Hpos).
    assert (Hqp : pt + s + BLOCK_SIZE <> pt) by (unfold BLOCK_SIZE; lia).
    split; [assumption|].
    apply (Hgrow [pt; pt + s + BLOCK_SIZE] o2
             (fun x => pt <= x < pt + totPage s * PAGE_SIZE));
      try assumption.
    + now apply lseg_link2.
    + intros a b' [<-|[<-|[]]].
      * rewrite lookup_insert_ne by assumption. rewrite lookup_insert_eq.
        intros [= <-]. simpl. split; [assumption|].
        intros x Hx. unfold BLOCK_SIZE in *. lia.
      * rewrite lookup_insert_eq. intros [= <-]. simpl. rewrite Esz.
        split; [lia|]. intros x Hx. unfold BLOCK_SIZE in *. lia.
    + intros a1 a2 b1 b2 [<-|[<-|[]]] [<-|[<-|[]]] Hd; try (now elim Hd).
      * rewrite lookup_insert_ne by assumption. rewrite !lookup_insert_eq.
        intros [= <-] [= <-]. simpl. left. lia.
      * rewrite lookup_insert_eq. rewrite lookup_insert_ne by assumption.
        rewrite lookup_insert_eq.
        intros [= <-] [= <-]. simpl. right. lia.
Qed.

(** An allocation from a list that is laid out, for a size that does not
    wrap: the path taken, and the layout kept. *)
Lemma mymalloc_sound fuel s st l v st' :
  laid_out st l -> no_wrap s -> (length l <= fuel)%nat ->
  mymalloc fuel s st = Ret v st' ->
  malloc_effect s l st v st'
  /\ exists l',
      laid_out st' (l ++ l') /\ appended st st' l l'
      /\ (v <> NULL -> head st' <> NULL ->
          In (v - BLOCK_SIZE) (l ++ l')
          /\ exists blk, mem st' !! (v - BLOCK_SIZE) = Some blk
                         /\ s <= size blk /\ free blk = 0).
Proof.
  intros Hlay Hs Hf E. pose proof Hlay as (H & Hl & _).
  assert (Heff : malloc_effect s l st v st').
  { apply (mymalloc_cases fuel); try assumption. now apply lawful_grants. }
  split; [assumption|]. now apply effect_laid_out.
Qed.

(** A release keeps the layout. *)
Lemma myfree_laid_out p st l st' :
  laid_out st l -> In (p - BLOCK_SIZE) l -> myfree p st = Ret tt st' ->
  laid_out st' l /\ head st' = head st.
Proof.
  intros (H & Hl & Hok & Hback & Hapart) Hin E.
  destruct (lseg_lookup _ _ _ _ H Hin) as (Hz & b & Hb).
  rewrite myfree_eq in E by assumption. injection E as <-.
  split; [|reflexivity]. unfold laid_out. simpl.
  split; [now apply lseg_poke_keep|]. split; [assumption|].
  split; [assumption|].
  rewrite <- (app_nil_r l).
  apply (layout_grow (mem st) _ (os st) (os st) (head st) l []
           (fun _ => False));
    try assumption; try tauto.
  - intros a c Ha Hc. destruct (decide (p - BLOCK_SIZE = a)) as [->|Hne].
    + rewrite poke_eq, Hc. simpl. eauto.
    + rewrite poke_ne by assumption. eauto.
  - intros a c [].
  - intros a1 a2 c1 c2 [].
Qed.

(** Blocks that are laid out have headers that share no byte. *)
Lemma laid_out_spaced st l : laid_out st l -> spaced l.
Proof.
  intros (H & _ & _ & Hback & Hapart) a1 a2 H1 H2 Hne.
  destruct (lseg_lookup _ _ _ _ H H1) as (_ & b1 & Hb1).
  destruct (lseg_lookup _ _ _ _ H H2) as (_ & b2 & Hb2).
  destruct (Hback a1 b1 H1 Hb1) as (Hz1 & _).
  destruct (Hback a2 b2 H2 Hb2) as (Hz2 & _).
  destruct (Hapart a1 a2 b1 b2 H1 H2 Hne Hb1 Hb2); lia.
Qed.

(** One call keeps the layout, and appends. *)
Lemma call_returns_laid_out c v st st' l :
  laid_out st l -> call_returns c v st st' ->
  exists l', laid_out st' (l ++ l') /\ appended st st' l l'.
Proof.
  intros Hlay Hc. pose proof Hlay as (H & Hl & _).
  destruct Hc as [fuel s l2 v st st' H2 Hf Hs E
                 |fuel nmemb s l2 v st st' H2 Hf Hs E Hh
                 |p l2 st st' H2 Hin E];
    pose proof (lseg_functional _ _ _ _ H2 H) as ->.
  - destruct (mymalloc_sound _ _ _ _ _ _ Hlay Hs Hf E)
      as (_ & l' & Hlay' & Happ & _).
    eauto.
  - rewrite mycalloc_eq in E.
    destruct (mymalloc fuel (wrap (nmemb * s)) st) as [r st1| | |] eqn:E1;
      try discriminate.
    destruct ((r =? NULL) && (0 <? wrap (nmemb * s))); [discriminate|].
    injection E as <- <-.
    destruct (mymalloc_sound _ _ _ _ _ _ Hlay Hs Hf E1)
      as (_ & l' & Hlay' & Happ & _).
    exists l'. split; [exact Hlay'|exact Happ].
  - destruct (myfree_laid_out _ _ _ _ Hlay Hin E) as (Hlay' & Hh).
    exists []. rewrite app_nil_r. split; [assumption|].
    destruct Hlay' as (H' & _).
    split; [now rewrite app_nil_r|]. split; [simpl; lia|].
    split; [intros x []|now intros _].
Qed.

(** A sequence of calls keeps the layout, and appends. *)
Lemma calls_return_laid_out st tr st' :
  calls_return st tr st' ->
  forall l, laid_out st l ->
    exists l', laid_out st' (l ++ l')
               /\ (head st <> NULL -> head st' = head st).
Proof.
  induction 1 as [st|st c v st1 tr st' Hc _ IH]; intros l Hlay.
  - exists []. rewrite app_nil_r. now split.
  - destruct (call_returns_laid_out _ _ _ _ _ Hlay Hc)
      as (l1 & Hlay1 & _ & _ & _ & Hh1).
    destruct (IH _ Hlay1) as (l2 & Hlay2 & Hh2).
    exists (l1 ++ l2). rewrite app_assoc. split; [assumption|].
    intros Hh. rewrite Hh2; [now apply Hh1|]. rewrite (Hh1 Hh). exact Hh.
Qed.

(** One call and the headers of before: the size stays, and a block in use
    that the call does not release stays in use and is not handed out. *)
Lemma call_returns_frame c v st st' l a b :
  laid_out st l -> call_returns c v st st' ->
  In a l -> mem st !! a = Some b ->
  exists b',
    mem st' !! a = Some b' /\ size b' = size b
    /\ (free b = 0 -> c <> Free (a + BLOCK_SIZE) ->
        free b' = 0 /\ (v <> NULL -> v <> a + BLOCK_SIZE)).
Proof.
  intros Hlay Hc Hin Hb. pose proof Hlay as (H & Hl & Hok & _).
  assert (Hpos : 0 < a).
  { apply (owned_positive (os st)); [assumption|].
    now apply (laid_out_owned st l). }
  assert (Hm : forall s v1 st1,
    malloc_effect s l st v1 st1 ->
    exists b',
      mem st1 !! a = Some b' /\ size b' = size b
      /\ (free b = 0 -> free b' = 0 /\ (v1 <> NULL -> v1 <> a + BLOCK_SIZE))).
  { intros s v1 st1 Heff.
    destruct (effect_frame s l st v1 st1 Heff a b Hin Hb)
      as (b' & Hb' & Hsz & Hfr & _).
    exists b'. split; [assumption|]. split; [assumption|]. intros Hfree.
    assert (Hne : a <> v1 - BLOCK_SIZE).
    { destruct (decide (v1 = NULL)) as [->|Hv].
      - unfold NULL, BLOCK_SIZE. lia.
      - intros Ea. symmetry in Ea. revert Ea.
        now apply (effect_not_in_use s l st v1 st1 a b). }
    split; [rewrite (Hfr Hne); assumption|]. intros _. lia. }
  destruct Hc as [fuel s l2 v st st' H2 Hf Hs E
                 |fuel nmemb s l2 v st st' H2 Hf Hs E Hh
                 |p l2 st st' H2 Hin2 E];
    pose proof (lseg_functional _ _ _ _ H2 H) as ->.
  - destruct (mymalloc_sound _ _ _ _ _ _ Hlay Hs Hf E) as (Heff & _).
    destruct (Hm _ _ _ Heff) as (b' & Hb' & Hsz & Hfree).
    exists b'. split; [assumption|]. split; [assumption|]. now intros Hf0 _; apply Hfree.
  - rewrite mycalloc_eq in E.
    destruct (mymalloc fuel (wrap (nmemb * s)) st) as [r st1| | |] eqn:E1;
      try discriminate.
    destruct ((r =? NULL) && (0 <? wrap (nmemb * s))); [discriminate|].
    injection E as <- <-.
    destruct (mymalloc_sound _ _ _ _ _ _ Hlay Hs Hf E1) as (Heff & _).
    destruct (Hm _ _ _ Heff) as (b' & Hb' & Hsz & Hfree).
    exists b'. simpl. split; [assumption|]. split; [assumption|].
    now intros Hf0 _; apply Hfree.
  - destruct (lseg_lookup _ _ _ _ H Hin2) as (Hz & _).
    rewrite myfree_eq in E by assumption. injection E as <-. simpl.
    destruct (decide (p - BLOCK_SIZE = a)) as [Ea|Hne].
    + rewrite Ea, poke_eq, Hb. simpl. eexists. split; [reflexivity|].
      split; [reflexivity|]. intros _ Hnf. elim Hnf. f_equal. lia.
    + rewrite poke_ne by assumption. exists b. split; [assumption|].
      split; [reflexivity|]. intros Hf0 _. split; [assumption|].
      intros Hv. now elim Hv.
Qed.

(** The header of a pointer that was returned is in the list after any
    number of calls, and the headers of the list share no byte. *)
Lemma returned_header_stays fuel s st l p st1 tr st2 l2 :
  laid_out st l -> no_wrap s -> (length l <= fuel)%nat ->
  mymalloc fuel s st = Ret p st1 -> p <> NULL -> head st1 <> NULL ->
  calls_return st1 tr st2 ->
  lseg (mem st2) (head st2) l2 ->
  In (p - BLOCK_SIZE) l2 /\ spaced l2.
Proof.
  intros Hlay Hs Hf E Hp Hh Hcs H2.
  destruct (mymalloc_sound _ _ _ _ _ _ Hlay Hs Hf E)
    as (_ & l1 & Hlay1 & _ & Hown).
  destruct (Hown Hp Hh) as (Hin & _).
  destruct (calls_return_laid_out _ _ _ Hcs _ Hlay1) as (l' & Hlay2 & _).
  pose proof Hlay2 as (H2' & _).
  rewrite (lseg_functional _ _ _ _ H2 H2').
  split; [apply in_or_app; now left|now apply (laid_out_spaced st2)].
Qed.

(** *** Bootstrap *)


(** *** Sequences of calls *)


(** ** Further properties of allocations that are laid out *)

(** X1: from a list that is laid out and for a size that does not wrap,
    the pointer that [mymalloc] returns, non-null and with the list set
    up, is the address behind a header of the list; the block is in use,
    its [size] is at least the size requested, and the bytes handed to the
    caller are memory the kernel gave to the process. *)
Theorem allocation_is_large_enough fuel s st l v st' :
  laid_out st l -> no_wrap s -> (length l <= fuel)%nat ->
  mymalloc fuel s st = Ret v st' -> v <> NULL -> head st' <> NULL ->
  exists l' blk,
    laid_out st' (l ++ l')
    /\ In (v - BLOCK_SIZE) (l ++ l')
    /\ mem st' !! (v - BLOCK_SIZE) = Some blk
    /\ s <= size blk /\ free blk = 0
    /\ forall x, v <= x < v + s -> owned (os st') x.
Proof.
  intros Hlay Hs Hf E Hv Hh.
  destruct (mymalloc_sound _ _ _ _ _ _ Hlay Hs Hf E)
    as (_ & l' & Hlay' & _ & Hown).
  destruct (Hown Hv Hh) as (Hin & blk & Hb & Hsz & Hfree).
  exists l', blk. split; [assumption|]. split; [assumption|].
  split; [assumption|]. split; [assumption|]. split; [assumption|].
  destruct Hlay' as (_ & _ & _ & Hback & _).
  destruct (Hback _ _ Hin Hb) as (_ & Hx).
  intros x Hxv. apply Hx. unfold BLOCK_SIZE in *. lia.
Qed.

(** X2: two allocations in a row, with no release in between, from a list
    that is laid out and for sizes that do not wrap, return different
    pointers, and the bytes handed out by the one are not bytes of the
    other, nor of its header. *)
Theorem successive_allocations_differ fuel1 fuel2 s1 s2 st0 l0 v1 st1 v2 st2 :
  laid_out st0 l0 -> no_wrap s1 -> no_wrap s2 ->
  (length l0 <= fuel1)%nat -> (length l0 + 2 <= fuel2)%nat ->
  mymalloc fuel1 s1 st0 = Ret v1 st1 -> v1 <> NULL -> head st1 <> NULL ->
  mymalloc fuel2 s2 st1 = Ret v2 st2 -> v2 <> NULL ->
  v1 <> v2
  /\ (v1 + s1 <= v2 - BLOCK_SIZE \/ v2 + s2 <= v1 - BLOCK_SIZE).
Proof.
  intros Hlay0 Hs1 Hs2 Hf1 Hf2 E1 Hv1 Hh1 E2 Hv2.
  destruct (mymalloc_sound _ _ _ _ _ _ Hlay0 Hs1 Hf1 E1)
    as (_ & l1 & Hlay1 & (_ & Hlen1 & _) & Hown1).
  destruct (Hown1 Hv1 Hh1) as (Hin1 & blk1 & Hb1 & Hsz1 & Hfree1).
  assert (Hf2' : (length (l0 ++ l1) <= fuel2)%nat).
  { rewrite length_app. lia. }
  destruct (mymalloc_sound _ _ _ _ _ _ Hlay1 Hs2 Hf2' E2)
    as (Heff2 & l2 & Hlay2 & (_ & _ & _ & Hh2) & Hown2).
  assert (Hh2' : head st2 <> NULL) by (rewrite (Hh2 Hh1); exact Hh1).
  destruct (Hown2 Hv2 Hh2') as (Hin2 & blk2 & Hb2 & Hsz2 & Hfree2).
  pose proof (effect_not_in_use _ _ _ _ _ _ _ Heff2 Hv2 Hin1 Hb1 Hfree1) as Hne.
  destruct (effect_frame _ _ _ _ _ Heff2 _ _ Hin1 Hb1) as (blk1' & Hb1' & Hsz1' & _).
  destruct Hlay2 as (_ & _ & _ & _ & Hapart).
  assert (Hin1' : In (v1 - BLOCK_SIZE) ((l0 ++ l1) ++ l2)).
  { apply in_or_app. now left. }
  destruct (Hapart _ _ _ _ Hin1' Hin2 (not_eq_sym Hne) Hb1' Hb2);
    unfold BLOCK_SIZE in *; split; lia.
Qed.

(** X3: an allocation from a list that is laid out, for a size that does
    not wrap, touches at most two headers of the list as it was: the
    [free] flag of the block it hands out and the [next] field of the last
    header.  Every header keeps its [size]; every header but the one
    handed out keeps its [free] flag; every header but the last keeps its
    [next]; and the headers it adds share no byte with the blocks of
    before. *)
Theorem allocation_leaves_other_blocks fuel s st l v st' a b :
  laid_out st l -> no_wrap s -> (length l <= fuel)%nat ->
  mymalloc fuel s st = Ret v st' ->
  In a l -> mem st !! a = Some b ->
  (exists b', mem st' !! a = Some b' /\ size b' = size b
              /\ (a <> v - BLOCK_SIZE -> free b' = free b)
              /\ (a <> List.last l NULL -> next b' = next b))
  /\ exists l', laid_out st' (l ++ l') /\ (length l' <= 2)%nat.
Proof.
  intros Hlay Hs Hf E Hin Hb.
  destruct (mymalloc_sound _ _ _ _ _ _ Hlay Hs Hf E)
    as (Heff & l' & Hlay' & (_ & Hlen & _) & _).
  split; [now apply (effect_frame s l st v st')|]. eauto.
Qed.

(** X4: the [size] of a header never changes: from a list that is laid
    out, after any number of calls of [mymalloc] and [mycalloc] for sizes
    that do not wrap and of [myfree] for pointers of the list, every
    header of the list has the size it was created with.  A block is
    never split or merged when it is taken again. *)
Theorem header_sizes_never_change st tr st' l a b :
  laid_out st l -> calls_return st tr st' ->
  In a l -> mem st !! a = Some b ->
  exists b', mem st' !! a = Some b' /\ size b' = size b.
Proof.
  intros Hlay Hcs. revert l a b Hlay.
  induction Hcs as [st|st c v st1 tr st' Hc _ IH]; intros l a b Hlay Hin Hb.
  - eauto.
  - destruct (call_returns_frame _ _ _ _ _ _ _ Hlay Hc Hin Hb)
      as (b1 & Hb1 & Hs1 & _).
    destruct (call_returns_laid_out _ _ _ _ _ Hlay Hc) as (l1 & Hlay1 & _).
    destruct (IH (l ++ l1) a b1 Hlay1) as (b' & Hb' & Hs');
      [apply in_or_app; now left|assumption|].
    exists b'. split; [assumption|congruence].
Qed.

(** X5: from a list that is laid out, with no block that fits and a
    request that does not wrap and, with its header, is smaller than a
    page, [mymalloc] moves the break by the size of the request and of one
    header, writes one header at the old break, in the memory that [sbrk]
    just handed out, with [size = s], in use, behind the last header of
    the list, and returns the address right behind it; [mmap] is not
    called, and the list is laid out again. *)
Theorem small_request_moves_break fuel s st l pt o1 r o2 :
  laid_out st l -> l <> [] -> memChange st = false ->
  (length l <= fuel)%nat ->
  (forall x, In x l -> fits (mem st) s x = false) ->
  no_wrap s -> s + BLOCK_SIZE < PAGE_SIZE ->
  sbrk 0 (os st) = (pt, o1) ->
  sbrk (to_intptr (wrap (s + BLOCK_SIZE))) o1 = (r, o2) ->
  r <> MAP_FAILED ->
  exists st',
    mymalloc fuel s st = Ret (pt + BLOCK_SIZE) st'
    /\ mem st' = <[pt := Block s NULL 0]>
                   (poke (set_next pt) (List.last l NULL) (mem st))
    /\ laid_out st' (l ++ [pt])
    /\ sbrk (s + BLOCK_SIZE) (os st) = (r, o2)
    /\ (forall x, pt <= x < pt + BLOCK_SIZE + s ->
          ~ owned (os st) x /\ owned o2 x)
    /\ head st' = head st /\ os st' = o2
    /\ memChange st' = false /\ listChange st' = false.
Proof.
  intros Hlay Hne Hm Hf Hno Hs Hpage E1 E2 Hr.
  pose proof Hlay as (H & Hl & Hok & _).
  pose proof Hs as (Hrg & Hs63). pose proof Hrg as (Hs0 & _ & Hp & _).
  destruct (brk_facts s _ _ _ _ _ Hok Hs0 Hs63 E1 E2) as (E3 & _ & _ & Hg).
  destruct (Hg Hr) as (_ & Hreg).
  destruct (lawful_grants st l s Hlay Hs) as (Hbrk & _).
  pose proof (Hbrk _ _ _ _ E1 E2 Hr) as Hfr.
  assert (Hh : head st <> NULL).
  { destruct l as [|x l]; [congruence|]. now apply lseg_head_not_null in H. }
  pose proof (last_In l NULL Hne) as Hin.
  destruct (lseg_lookup _ _ _ _ H Hin) as (Hz & _).
  pose proof Hfr as [Hpt _].
  assert (Hsmall : (upage <=? wrap (s + BLOCK_SIZE)) = false).
  { apply Z.leb_gt. unfold upage.
    rewrite (wrap_small PAGE_SIZE) by lia.
    rewrite (wrap_small (s + BLOCK_SIZE)) by (unfold BLOCK_SIZE in *; lia).
    assumption. }
  pose proof Hr as Hr'. apply Z.eqb_neq in Hh, Hr', Hpt. unfold NULL in Hh.
  assert (E : mymalloc fuel s st
    = Ret (pt + BLOCK_SIZE)
        (State (<[pt := Block s NULL 0]>
                  (poke (set_next pt) (List.last l NULL) (mem st)))
               (head st) false false o2 (Debug :: out st))).
  { rewrite mymalloc_eq by assumption. rewrite Hh.
    rewrite (nextBlock_spec fuel s st l) by assumption.
    unfold first_fit. rewrite (find_all_false _ _ Hno), Hsmall.
    rewrite expandHeap_eq by assumption. rewrite E1, E2, Hr', Hpt, Hpt.
    reflexivity. }
  eexists. split; [exact E|]. simpl.
  split; [reflexivity|]. split; [|now split_and!].
  destruct (mymalloc_sound _ _ _ _ _ _ Hlay Hs Hf E)
    as (_ & l' & Hlay' & _).
  pose proof Hlay' as (H' & _). simpl in H'.
  assert (Hl1 : lseg (<[pt := Block s NULL 0]>
                        (poke (set_next pt) (List.last l NULL) (mem st)))
                     (head st) (l ++ [pt])) by now apply lseg_link1.
  now rewrite <- (lseg_functional _ _ _ _ H' Hl1).
Qed.

(** X15: the zero fill of [mycalloc] covers [nmemb * s] modulo [2^64]
    bytes, as many as were requested from [mymalloc].  From a list that is
    laid out, when this number does not wrap with a header and [mycalloc]
    returns a non-null pointer with the list set up, [memset] was called
    once, on that pointer; the bytes it fills are bytes of the block
    handed out, which is in use: they are memory of the process and touch
    no header of the list.  When the product overflows, the number of
    bytes filled is less than [nmemb * s]. *)
Theorem zero_fill_stays_in_block fuel nmemb s st l r st2 :
  laid_out st l -> no_wrap (wrap (nmemb * s)) -> (length l <= fuel)%nat ->
  mycalloc fuel nmemb s st = Ret r st2 -> r <> NULL -> head st2 <> NULL ->
  exists blk st1 l',
    mymalloc fuel (wrap (nmemb * s)) st = Ret r st1
    /\ mem st2 = mem st1 /\ head st2 = head st1 /\ os st2 = os st1
    /\ out st2 = Debug :: Memset r (wrap (nmemb * s)) :: out st1
    /\ laid_out st2 (l ++ l')
    /\ In (r - BLOCK_SIZE) (l ++ l')
    /\ mem st2 !! (r - BLOCK_SIZE) = Some blk
    /\ free blk = 0 /\ wrap (nmemb * s) <= size blk
    /\ (forall x, r <= x < r + wrap (nmemb * s) ->
          owned (os st2) x
          /\ forall a, In a (l ++ l') -> ~ header_bytes a x)
    /\ (2 ^ 64 <= nmemb * s -> wrap (nmemb * s) < nmemb * s).
Proof.
  intros Hlay Hs Hf E Hr Hh. rewrite mycalloc_eq in E.
  destruct (mymalloc fuel (wrap (nmemb * s)) st) as [r1 st1| | |] eqn:E1;
    try discriminate.
  destruct ((r1 =? NULL) && (0 <? wrap (nmemb * s))); [discriminate|].
  injection E as <- <-. simpl in Hh.
  destruct (mymalloc_sound _ _ _ _ _ _ Hlay Hs Hf E1)
    as (_ & l' & Hlay' & _ & Hown).
  destruct (Hown Hr Hh) as (Hin & blk & Hb & Hsz & Hfree).
  exists blk, st1, l'. simpl.
  split; [reflexivity|]. split; [reflexivity|]. split; [reflexivity|].
  split; [reflexivity|]. split; [reflexivity|]. split; [exact Hlay'|].
  split; [assumption|]. split; [assumption|]. split; [assumption|].
  split; [assumption|]. split.
  - destruct Hlay' as (H' & _ & _ & Hback & Hapart).
    destruct (Hback _ _ Hin Hb) as (_ & Hx).
    intros x Hxr. split; [apply Hx; unfold BLOCK_SIZE in *; lia|].
    intros a Ha Hhd. unfold header_bytes in Hhd.
    destruct (decide (a = r1 - BLOCK_SIZE)) as [->|Hne];
      [unfold BLOCK_SIZE in *; lia|].
    destruct (lseg_lookup _ _ _ _ H' Ha) as (_ & ba & Hba).
    destruct (Hback _ _ Ha Hba) as (Hza & _).
    destruct (Hapart _ _ _ _ Ha Hin Hne Hba Hb); unfold BLOCK_SIZE in *; lia.
  - intros Hov. unfold wrap.
    assert (0 <= (nmemb * s) mod 2 ^ 64 < 2 ^ 64) by (apply Z.mod_pos_bound; lia).
    lia.
Qed.

(** X16: a block in use is not handed out again before it is released.
    From a list that is laid out, through any sequence of calls, for sizes
    that do not wrap and pointers of the list, that does not release the
    block at [a], no call of [mymalloc] or [mycalloc] returns the pointer
    of that block, and at the end the block is still in the memory, in
    use. *)
Theorem block_in_use_stays_owned st tr st' l a b :
  laid_out st l -> calls_return st tr st' ->
  In a l -> mem st !! a = Some b -> free b = 0 ->
  (forall v, ~ In (Free (a + BLOCK_SIZE), v) tr) ->
  (forall c v, In (c, v) tr -> v <> NULL -> v <> a + BLOCK_SIZE)
  /\ exists b', mem st' !! a = Some b' /\ free b' = 0.
Proof.
  intros Hlay Hcs. revert l a b Hlay.
  induction Hcs as [st|st c v st1 tr st' Hc _ IH];
    intros l a b Hlay Hin Hb Hfree Hnf.
  - split; [intros c v []|eauto].
  - assert (Hc' : c <> Free (a + BLOCK_SIZE)).
    { intros ->. apply (Hnf v). now left. }
    destruct (call_returns_frame _ _ _ _ _ _ _ Hlay Hc Hin Hb)
      as (b1 & Hb1 & _ & Hkeep).
    destruct (Hkeep Hfree Hc') as (Hfree1 & Hv).
    destruct (call_returns_laid_out _ _ _ _ _ Hlay Hc) as (l1 & Hlay1 & _).
    destruct (IH (l ++ l1) a b1 Hlay1) as (Hvs & Hend);
      [apply in_or_app; now left|assumption|assumption| |].
    { intros v' Hin'. apply (Hnf v'). now right. }
    split; [|exact Hend].
    intros c' v' [[= <- <-]|Hin']; [exact Hv|now apply (Hvs c')].
Qed.

End Sound.

(** ** The theorems at concrete states *)

Ltac list_here :=
  simpl; repeat first [split | discriminate | eexists | reflexivity].

Lemma bootstrap_failure_not_null_witness :
  exists st',
    mymalloc 0 100 fresh_state_full = Ret BLOCK_SIZE st'
    /\ BLOCK_SIZE <> NULL
    /\ mem st' = ∅ /\ head st' = NULL
    /\ out st' = []
    /\ memChange st' = true.
Proof.
  apply (bootstrap_failure_not_null 0 100 fresh_state_full); reflexivity.
Defined.

Lemma zero_fill_runs_on_null_witness :
  mycalloc 1 1 8 one_block_full = Crash NullMemset.
Proof.
  apply (zero_fill_runs_on_null 1 1 8 one_block_full
           (State {[ 4096 := Block 64 NULL 0 ]} 4096 true false
                  (full_at 4184) [Perror]));
    reflexivity.
Defined.

(** Free blocks of 200 and 50 bytes, a request for 40: the block of 200
    bytes, first in the list, is taken. *)
Lemma search_is_first_fit_witness :
  nextBlock 2 40 two_free = Ret 4096 (claim 4096 two_free)
  /\ mem (claim 4096 two_free)
     = {[ 4096 := Block 200 4320 0; 4320 := Block 50 NULL 1 ]}.
Proof.
  split; [|reflexivity].
  apply (search_is_first_fit 2 40 two_free [] 4096 [4320]).
  - list_here.
  - reflexivity.
  - simpl. lia.
  - intros x [].
  - reflexivity.
Defined.

Lemma search_head_not_null_witness :
  nextBlock 1 40 fresh_state = Crash NullDeref
  /\ In (List.last [4096; 4320] NULL) [4096; 4320]
  /\ List.last [4096; 4320] NULL <> NULL
  /\ ((exists a, In a [4096; 4320] /\ fits (mem two_free) 40 a = true
                 /\ nextBlock 2 40 two_free = Ret a (claim a two_free))
      \/ ((forall x, In x [4096; 4320] -> fits (mem two_free) 40 x = false)
          /\ nextBlock 2 40 two_free =
             if upage <=? wrap (40 + BLOCK_SIZE)
             then allocMap 40 (List.last [4096; 4320] NULL) two_free
             else expandHeap 40 (List.last [4096; 4320] NULL) two_free)).
Proof.
  split.
  - apply (search_head_not_null 0 40 fresh_state); reflexivity.
  - apply (proj2 (proj2 (search_head_not_null 2 40 two_free eq_refl))
             [4096; 4320]).
    + discriminate.
    + list_here.
    + simpl. lia.
Defined.

(** [mymalloc 100], [myfree], [mymalloc 50] from the start. *)
Lemma release_then_smaller_allocate_reuses_witness :
  let st1 := State {[ 4096 := Block 100 NULL 0 ]} 4096 false false
                   (kernel_at 4220) [] in
  mymalloc 0 100 fresh_state = Ret 4120 st1
  /\ exists st2 st3,
      myfree 4120 st1 = Ret tt st2
      /\ mymalloc 1 50 st2 = Ret 4120 st3
      /\ os st3 = os st1
      /\ lseg (mem st3) (head st3) [4096]
      /\ mem st3 = mem st1 /\ head st3 = head st1.
Proof.
  intros st1. split; [reflexivity|].
  apply (release_then_smaller_allocate_reuses 0 1 fresh_state [] 4120 st1 [4096]).
  - reflexivity.
  - reflexivity.
  - split; [split; [discriminate|intros []]|].
    cbv zeta. intros _. split; (split; [discriminate|]); simpl.
    + intros [].
    + intros [E|[]]. discriminate.
  - simpl. lia.
  - reflexivity.
  - discriminate.
  - list_here.
  - now left.
  - intros a [E|[]] Hne. elim Hne. now rewrite <- E.
  - simpl. lia.
Defined.

(** C3 as stated fails: with pages of 4096 bytes and [s = 8138], two pages
    less [s] and two headers leave 6 bytes, fewer than a header and one
    byte, and yet the mapping is split, the second block holding these 6
    bytes; and with [s = 8158], where the mapping is kept in one block,
    the [size] written is 8158 and not the 8168 bytes that follow the
    header in the mapping. *)
Lemma single_block_mapping_as_stated_fails :
  stated_no_split 8138 = true
  /\ no_split 8138 = false
  /\ allocMap 8138 4096 one_block
     = Ret 16777216
         (State {[ 4096 := Block 64 16777216 0;
                   16777216 := Block 8138 16785378 0;
                   16785378 := Block 6 NULL 1 ]}
                4096 false false (Toy 4184 1048576 16785408 3) [])
  /\ allocMap 8158 4096 one_block
     = Ret 16777216
         (State {[ 4096 := Block 64 16777216 0;
                   16777216 := Block 8158 NULL 0 ]}
                4096 false false (Toy 4184 1048576 16785408 3) [])
  /\ 2 * PAGE_SIZE - BLOCK_SIZE = 8168.
Proof. split_and!; reflexivity. Qed.

Lemma single_block_mapping_witness :
  let st1 :=
    State (<[16777216 := Block 8158 NULL 0]>
             (poke (set_next 16777216) 4096 (mem one_block)))
          4096 false false (Toy 4184 1048576 16785408 3) [] in
  (no_split 8158 = true <-> allocMap 8158 4096 one_block = Ret 16777216 st1)
  /\ lseg (mem st1) (head st1) [4096; 16777216]
  /\ (no_split 8158 = true
      <-> (totPage 8158 * PAGE_SIZE = 8158 + BLOCK_SIZE
           \/ totPage 8158 * PAGE_SIZE - 8158 - BLOCK_SIZE < BLOCK_SIZE + 1))
  /\ PAGE_SIZE * (totPage 8158 - 1) < 8158 + BLOCK_SIZE
     <= PAGE_SIZE * totPage 8158.
Proof.
  intros st1.
  destruct (single_block_mapping 8158 one_block [4096] 16777216
              (Toy 4184 1048576 16785408 3))
    as (H1 & H2 & H3).
  - reflexivity.
  - reflexivity.
  - list_here.
  - discriminate.
  - reflexivity.
  - discriminate.
  - split; [discriminate|]. simpl. intros [E|[]]. discriminate.
  - split; [exact H1|]. split; [exact H2|]. apply H3.
    unfold in_range. repeat split; vm_compute; congruence.
Defined.



(** ** The further properties at concrete states *)

Ltac fresh_here := vm_compute; intuition discriminate.

Ltac none_fits := intros ? ?; simpl in *; intuition (subst; reflexivity).


Lemma mapping_failure_is_clean_witness :
  mymalloc 1 8138 one_block_full
  = Ret NULL (State (mem one_block_full) 4096 false false (full_at 4184) [Perror]).
Proof.
  apply (mapping_failure_is_clean 1 8138 one_block_full [4096] (full_at 4184)).
  - list_here.
  - discriminate.
  - reflexivity.
  - reflexivity.
  - simpl. lia.
  - none_fits.
  - vm_compute. discriminate.
  - reflexivity.
Defined.

Lemma break_failure_blocks_later_growth_witness :
  let st' := State (mem one_block_full) 4096 true false (full_at 4184) [Perror] in
  mymalloc 1 32 one_block_full = Ret NULL st'
  /\ mymalloc 1 16 st' = Deadlock.
Proof.
  intros st'.
  destruct (break_failure_blocks_later_growth 1 32 one_block_full [4096] 4184
              (full_at 4184) (full_at 4184)) as (E & Hd & _).
  - list_here.
  - discriminate.
  - reflexivity.
  - reflexivity.
  - simpl. lia.
  - none_fits.
  - reflexivity.
  - reflexivity.
  - reflexivity.
  - split; [exact E|]. apply Hd. none_fits.
Defined.

Lemma bootstrap_failure_blocks_all_later_calls_witness :
  exists st',
    mymalloc 0 100 fresh_state_full = Ret BLOCK_SIZE st'
    /\ (forall fuel' s', mymalloc fuel' s' st' = Deadlock)
    /\ (forall fuel' n s', mycalloc fuel' n s' st' = Deadlock).
Proof.
  apply (bootstrap_failure_blocks_all_later_calls 0 100 fresh_state_full);
    reflexivity.
Defined.

Lemma release_then_allocate_round_trip_witness :
  exists st1 st2,
    myfree (4096 + BLOCK_SIZE) one_block = Ret tt st1
    /\ mymalloc 1 32 st1 = Ret (4096 + BLOCK_SIZE) st2
    /\ mem st2 = <[4096 := Block 64 NULL 0]> (mem one_block)
    /\ lseg (mem st2) (head st2) [4096]
    /\ head st2 = 4096 /\ os st2 = kernel_at 4184.
Proof.
  apply (release_then_allocate_round_trip 1 32 one_block [] 4096 []
           (Block 64 NULL 0)).
  - list_here.
  - reflexivity.
  - simpl. lia.
  - reflexivity.
  - simpl. lia.
  - intros x [].
Defined.

Lemma double_release_changes_nothing_witness :
  exists st1 st2,
    myfree 4120 one_block = Ret tt st1 /\ myfree 4120 st1 = Ret tt st2
    /\ mem st2 = mem st1 /\ head st2 = head st1 /\ os st2 = os st1
    /\ lseg (mem st2) (head st2) [4096].
Proof.
  apply (double_release_changes_nothing 4120 one_block [4096]).
  - list_here.
  - now left.
Defined.

Lemma mapping_blocks_fill_pages_witness :
  exists st' b1,
    allocMap 8138 (List.last [4096] NULL) one_block = Ret 16777216 st'
    /\ mem st' !! 16777216 = Some b1 /\ size b1 = 8138
    /\ (if no_split 8138
        then next b1 = NULL
             /\ 16777216 + BLOCK_SIZE + size b1
                <= 16777216 + totPage 8138 * PAGE_SIZE
                <= 16777216 + BLOCK_SIZE + size b1 + BLOCK_SIZE
        else exists b2,
             mem st' !! next b1 = Some b2
             /\ next b1 = 16777216 + BLOCK_SIZE + size b1
             /\ next b1 + BLOCK_SIZE + size b2
                = 16777216 + totPage 8138 * PAGE_SIZE
             /\ 0 < size b2 < PAGE_SIZE - BLOCK_SIZE).
Proof.
  apply (mapping_blocks_fill_pages 8138 one_block [4096] 16777216
           (Toy 4184 1048576 16785408 3)).
  - unfold in_range. repeat split; vm_compute; congruence.
  - reflexivity.
  - reflexivity.
  - list_here.
  - discriminate.
  - reflexivity.
  - discriminate.
  - fresh_here.
  - fresh_here.
Defined.


(** ** Layout: the theorems at concrete states *)

Ltac toy_here :=
  simpl;
  unfold toy_ok, toy_owned, one_block, two_free, fresh_state, kernel_at,
    BLOCK_SIZE;
  simpl; lia.

Ltac no_wrap_here :=
  unfold no_wrap, in_range; repeat split; vm_compute; congruence.

(** A layout on the small kernel: blocks below the break or below the end
    of the mappings. *)
Lemma toy_laid_out (st : state toy) l :
  lseg (mem st) (head st) l -> listChange st = false -> toy_ok (os st) ->
  (forall a b, In a l -> mem st !! a = Some b ->
     0 <= size b
     /\ (4096 <= a /\ a + BLOCK_SIZE + size b <= k_brk (os st)
         \/ 16777216 <= a /\ a + BLOCK_SIZE + size b <= k_map (os st))) ->
  apart (mem st) l ->
  laid_out st l.
Proof.
  intros H Hl Hok Hb Ha.
  split; [assumption|]. split; [assumption|]. split; [exact Hok|].
  split; [|assumption].
  intros a b Hin Hbb. destruct (Hb a b Hin Hbb) as (Hz & Hr).
  split; [assumption|]. intros x Hx. simpl. unfold toy_owned. lia.
Defined.

Lemma fresh_state_laid_out : laid_out fresh_state [].
Proof.
  apply toy_laid_out.
  - reflexivity.
  - reflexivity.
  - toy_here.
  - intros a b [].
  - intros a1 a2 b1 b2 [].
Defined.

Lemma one_block_laid_out : laid_out one_block [4096].
Proof.
  apply toy_laid_out.
  - list_here.
  - reflexivity.
  - toy_here.
  - intros a b [<-|[]] Hb. vm_compute in Hb. injection Hb as <-. toy_here.
  - intros a1 a2 b1 b2 [<-|[]] [<-|[]] Hne. now elim Hne.
Defined.

Lemma two_free_laid_out : laid_out two_free [4096; 4320].
Proof.
  apply toy_laid_out.
  - list_here.
  - reflexivity.
  - toy_here.
  - intros a b [<-|[<-|[]]] Hb; vm_compute in Hb; injection Hb as <-; toy_here.
  - intros a1 a2 b1 b2 [<-|[<-|[]]] [<-|[<-|[]]] Hne E1 E2;
      try (now elim Hne); vm_compute in E1, E2;
      injection E1 as <-; injection E2 as <-; toy_here.
Defined.







Lemma allocation_is_large_enough_witness :
  exists l' blk,
    laid_out (with_out [Debug] (claim 4096 two_free)) ([4096; 4320] ++ l')
    /\ In (4120 - BLOCK_SIZE) ([4096; 4320] ++ l')
    /\ mem (with_out [Debug] (claim 4096 two_free)) !! (4120 - BLOCK_SIZE)
       = Some blk
    /\ 40 <= size blk /\ free blk = 0
    /\ forall x, 4120 <= x < 4120 + 40 ->
                 owned (os (with_out [Debug] (claim 4096 two_free))) x.
Proof.
  apply (allocation_is_large_enough 2 40 two_free [4096; 4320] 4120
           (with_out [Debug] (claim 4096 two_free))).
  - exact two_free_laid_out.
  - no_wrap_here.
  - simpl. lia.
  - reflexivity.
  - discriminate.
  - discriminate.
Defined.

Lemma successive_allocations_differ_witness :
  4120 <> 4244
  /\ (4120 + 100 <= 4244 - BLOCK_SIZE \/ 4244 + 10 <= 4120 - BLOCK_SIZE).
Proof.
  apply (successive_allocations_differ 0 2 100 10 fresh_state [] 4120
           (State {[ 4096 := Block 100 NULL 0 ]} 4096 false false
                  (kernel_at 4220) [])
           4244
           (State {[ 4096 := Block 100 4220 0; 4220 := Block 10 NULL 0 ]}
                  4096 false false (kernel_at 4254) [Debug])).
  - exact fresh_state_laid_out.
  - no_wrap_here.
  - no_wrap_here.
  - simpl. lia.
  - simpl. lia.
  - reflexivity.
  - discriminate.
  - discriminate.
  - reflexivity.
  - discriminate.
Defined.

Lemma allocation_leaves_other_blocks_witness :
  (exists b',
     mem (with_out [Debug] (claim 4096 two_free)) !! 4320 = Some b'
     /\ size b' = 50
     /\ (4320 <> 4120 - BLOCK_SIZE -> free b' = 1)
     /\ (4320 <> List.last [4096; 4320] NULL -> next b' = NULL))
  /\ exists l',
       laid_out (with_out [Debug] (claim 4096 two_free)) ([4096; 4320] ++ l')
       /\ (length l' <= 2)%nat.
Proof.
  apply (allocation_leaves_other_blocks 2 40 two_free [4096; 4320] 4120
           (with_out [Debug] (claim 4096 two_free)) 4320 (Block 50 NULL 1)).
  - exact two_free_laid_out.
  - no_wrap_here.
  - simpl. lia.
  - reflexivity.
  - right. now left.
  - reflexivity.
Defined.

Lemma two_free_calls :
  calls_return two_free [(Malloc 40, 4120)]
    (with_out [Debug] (claim 4096 two_free)).
Proof.
  apply calls_cons with (st1 := with_out [Debug] (claim 4096 two_free));
    [|apply calls_nil].
  apply (ret_mymalloc 2 40 [4096; 4320]).
  - list_here.
  - simpl. lia.
  - no_wrap_here.
  - reflexivity.
Defined.

Lemma header_sizes_never_change_witness :
  exists b',
    mem (with_out [Debug] (claim 4096 two_free)) !! 4096 = Some b'
    /\ size b' = 200.
Proof.
  apply (header_sizes_never_change two_free [(Malloc 40, 4120)]
           (with_out [Debug] (claim 4096 two_free))
           [4096; 4320] 4096 (Block 200 4320 1)).
  - exact two_free_laid_out.
  - exact two_free_calls.
  - now left.
  - reflexivity.
Defined.

Lemma small_request_moves_break_witness :
  exists st',
    mymalloc 1 32 one_block = Ret (4184 + BLOCK_SIZE) st'
    /\ mem st' = <[4184 := Block 32 NULL 0]>
                   (poke (set_next 4184) (List.last [4096] NULL) (mem one_block))
    /\ laid_out st' ([4096] ++ [4184])
    /\ sbrk (32 + BLOCK_SIZE) (os one_block) = (4184, kernel_at 4240)
    /\ (forall x, 4184 <= x < 4184 + BLOCK_SIZE + 32 ->
          ~ owned (os one_block) x /\ owned (kernel_at 4240) x)
    /\ head st' = head one_block /\ os st' = kernel_at 4240
    /\ memChange st' = false /\ listChange st' = false.
Proof.
  apply (small_request_moves_break 1 32 one_block [4096] 4184
           (kernel_at 4184) 4184 (kernel_at 4240)).
  - exact one_block_laid_out.
  - discriminate.
  - reflexivity.
  - simpl. lia.
  - none_fits.
  - no_wrap_here.
  - vm_compute. reflexivity.
  - reflexivity.
  - reflexivity.
  - discriminate.
Defined.

(** [mycalloc 4 25] as the first call: 100 bytes behind the first
    header. *)
Lemma zero_fill_stays_in_block_witness :
  let st2 := State {[ 4096 := Block 100 NULL 0 ]} 4096 false false
                   (kernel_at 4220) [Debug; Memset 4120 100] in
  mycalloc 0 4 25 fresh_state = Ret 4120 st2
  /\ exists blk st1 l',
      mymalloc 0 (wrap (4 * 25)) fresh_state = Ret 4120 st1
      /\ mem st2 = mem st1 /\ head st2 = head st1 /\ os st2 = os st1
      /\ out st2 = Debug :: Memset 4120 (wrap (4 * 25)) :: out st1
      /\ laid_out st2 ([] ++ l')
      /\ In (4120 - BLOCK_SIZE) ([] ++ l')
      /\ mem st2 !! (4120 - BLOCK_SIZE) = Some blk
      /\ free blk = 0 /\ wrap (4 * 25) <= size blk
      /\ (forall x, 4120 <= x < 4120 + wrap (4 * 25) ->
            owned (os st2) x
            /\ forall a, In a ([] ++ l') -> ~ header_bytes a x)
      /\ (2 ^ 64 <= 4 * 25 -> wrap (4 * 25) < 4 * 25).
Proof.
  intros st2. split; [reflexivity|].
  apply (zero_fill_stays_in_block 0 4 25 fresh_state [] 4120 st2).
  - exact fresh_state_laid_out.
  - no_wrap_here.
  - simpl. lia.
  - reflexivity.
  - discriminate.
  - discriminate.
Defined.

Lemma one_block_calls :
  calls_return one_block [(Malloc 32, 4208)]
    (State {[ 4096 := Block 64 4184 0; 4184 := Block 32 NULL 0 ]}
           4096 false false (kernel_at 4240) [Debug]).
Proof.
  apply calls_cons with
    (st1 := State {[ 4096 := Block 64 4184 0; 4184 := Block 32 NULL 0 ]}
                  4096 false false (kernel_at 4240) [Debug]);
    [|apply calls_nil].
  apply (ret_mymalloc 1 32 [4096]).
  - list_here.
  - simpl. lia.
  - no_wrap_here.
  - reflexivity.
Defined.

Lemma block_in_use_stays_owned_witness :
  let st' := State {[ 4096 := Block 64 4184 0; 4184 := Block 32 NULL 0 ]}
                   4096 false false (kernel_at 4240) [Debug] in
  (forall c v, In (c, v) [(Malloc 32, 4208)] -> v <> NULL -> v <> 4096 + BLOCK_SIZE)
  /\ exists b', mem st' !! 4096 = Some b' /\ free b' = 0.
Proof.
  intros st'.
  apply (block_in_use_stays_owned one_block [(Malloc 32, 4208)] st'
           [4096] 4096 (Block 64 NULL 0)).
  - exact one_block_laid_out.
  - exact one_block_calls.
  - now left.
  - reflexivity.
  - reflexivity.
  - intros v [E|[]]. discriminate.
Defined.
